(** * A persistent treap (treap.go of package safe_treap)

    The Go code builds immutable binary trees out of heap cells [*Node] and
    never frees one.  It is embedded here over an explicit store: a [heap] is
    the list of the cells allocated so far, a [*Node] is [None] (Go's nil) or
    the address of a cell, [&Node{...}] appends a cell, and a field read
    through a nil [*Node] is the run-time panic [NilNode].  Recursive
    methods take a [fuel] argument, since a store may hold a cycle. *)

From Stdlib Require Import ZArith Lia Bool String Sorted Permutation.
From stdpp Require Import base option list.

Local Open Scope Z_scope.

(** ** Results of running Go code *)

Inductive outcome (A : Type) : Type :=
| Ok (a : A)      (* normal return *)
| NilNode         (* panic: a field read or written through a nil [*Node] *)
| NilFunc         (* panic: a nil [*Handle] dereferenced, or a nil comparator called *)
| Wild            (* a read at an address that holds no cell; no Go program does it *)
| OutOfFuel.      (* the recursion or loop was cut off *)

Arguments Ok {A} a.
Arguments NilNode {A}.
Arguments NilFunc {A}.
Arguments Wild {A}.
Arguments OutOfFuel {A}.

Definition obind {A B : Type} (e : outcome A) (k : A -> outcome B) : outcome B :=
  match e with
  | Ok a => k a
  | NilNode => NilNode
  | NilFunc => NilFunc
  | Wild => Wild
  | OutOfFuel => OutOfFuel
  end.

Notation "x <- e ;; k" := (obind e (fun x => k))
  (at level 20, e at level 99, k at level 200, only parsing).
Notation "' pat <- e ;; k" := (obind e (fun x => match x with pat => k end))
  (at level 20, pat pattern, e at level 99, k at level 200, only parsing).

(** ** Data model *)

(** [*Node]: nil, or the address of a cell of the store. *)
Definition ptr : Type := option nat.

(** Modelled from the spec: the declaration of type [Comparator] is not in
    treap.go.  The code calls a comparator on two values and reads an [int]
    back ([CompareKeys(k, n.Key)], [CompareWeights(a, b) < 0]); section 4.1 of
    the specification gives the same shape.  Like every Go func value it may be
    nil, and calling nil panics. *)
Definition Comparator (A : Type) : Type := option (A -> A -> Z).

Definition call {A : Type} (f : Comparator A) (a b : A) : outcome Z :=
  match f with
  | Some f => Ok (f a b)
  | None => NilFunc
  end.

Section Treap.

Context {K V : Type}.

(** [type Node struct]: keys and items are [interface{}] in Go and opaque
    here; [Weight] is an [int], on which the code does no arithmetic. *)
Record Node : Type := mkNode {
  Weight : Z;
  Key : K;
  Item : V;
  Left : ptr;
  Right : ptr
}.

(** The store: the cells allocated so far, each at its index. *)
Local Abbreviation heap := (list Node).

(** [type Handle struct]. *)
Record Handle : Type := mkHandle {
  CompareWeights : Comparator Z;
  CompareKeys : Comparator K
}.

(** [type Treap struct]; [handle] is a [*Handle]. *)
Record Treap : Type := mkTreap {
  handle : option Handle;
  root : ptr
}.

(** [func NewTreap(h *Handle)], returning a [*Treap] and an [error]. *)
Definition NewTreap (h : option Handle) : option Treap * option string :=
  match h with
  | None => (None, Some "comparator is nil"%string)
  | Some _ => (Some {| handle := h; root := None |}, None)
  end.

(** ** Reading the store *)

(** [*p] for a [p : *Node]. *)
Definition load (p : ptr) (h : heap) : outcome Node :=
  match p with
  | None => NilNode
  | Some a => match h !! a with
              | Some nd => Ok nd
              | None => Wild
              end
  end.

(** [*t.handle]. *)
Definition the_handle (t : Treap) : outcome Handle :=
  match handle t with
  | Some hd => Ok hd
  | None => NilFunc
  end.

(** [func (t *Treap) GetNode(n *Node, key interface{})], returning a [*Node]
    and a [bool]. *)
Fixpoint GetNode (fuel : nat) (t : Treap) (n : ptr) (key : K) (h : heap)
  : outcome (ptr * bool) :=
  match fuel with
  | O => OutOfFuel
  | S fuel =>
    match n with
    | None => Ok (None, false)
    | Some _ =>
      hd <- the_handle t ;;
      nd <- load n h ;;
      comp <- call (CompareKeys hd) key (Key nd) ;;
      if comp <? 0 then GetNode fuel t (Left nd) key h
      else if comp >? 0 then GetNode fuel t (Right nd) key h
      else Ok (n, true)
    end
  end.

(** [func (t *Treap) Get(n *Node, key interface{}) (v interface{}, found bool)];
    the nil [v] of a failed lookup is [None]. *)
Definition Get (fuel : nat) (t : Treap) (n : ptr) (key : K) (h : heap)
  : outcome (option V * bool) :=
  '(n', found) <- GetNode fuel t n key h ;;
  if found : bool then nd <- load n' h ;; Ok (Some (Item nd), true)
  else Ok (None, false).

(** The loop [for n.Left != nil { n = n.Left }] of [Min]. *)
Fixpoint Min_loop (fuel : nat) (n : ptr) (h : heap) : outcome ptr :=
  match fuel with
  | O => OutOfFuel
  | S fuel =>
    nd <- load n h ;;
    match Left nd with
    | None => Ok n
    | Some _ => Min_loop fuel (Left nd) h
    end
  end.

(** [func (t *Treap) Min() interface{}]. *)
Definition Min (fuel : nat) (t : Treap) (h : heap) : outcome (option V) :=
  match root t with
  | None => Ok None
  | Some _ =>
    n <- Min_loop fuel (root t) h ;;
    nd <- load n h ;;
    Ok (Some (Item nd))
  end.

(** The loop [for n.Right != nil { n = n.Right }] of [Max]. *)
Fixpoint Max_loop (fuel : nat) (n : ptr) (h : heap) : outcome ptr :=
  match fuel with
  | O => OutOfFuel
  | S fuel =>
    nd <- load n h ;;
    match Right nd with
    | None => Ok n
    | Some _ => Max_loop fuel (Right nd) h
    end
  end.

(** [func (t *Treap) Max() interface{}]. *)
Definition Max (fuel : nat) (t : Treap) (h : heap) : outcome (option V) :=
  match root t with
  | None => Ok None
  | Some _ =>
    n <- Max_loop fuel (root t) h ;;
    nd <- load n h ;;
    Ok (Some (Item nd))
  end.

(** ** Code that allocates: a state monad over the store *)

Definition M (A : Type) : Type := heap -> outcome (A * heap).

Definition ret {A : Type} (a : A) : M A := fun h => Ok (a, h).

Definition bind {A B : Type} (m : M A) (k : A -> M B) : M B :=
  fun h => '(a, h') <- m h ;; k a h'.

(** A read, as a step that leaves the store alone. *)
Definition rd {A : Type} (r : heap -> outcome A) : M A :=
  fun h => a <- r h ;; Ok (a, h).

(** [&Node{...}]: a fresh cell at the next free address. *)
Definition alloc (nd : Node) : M ptr :=
  fun h => Ok (Some (length h), h ++ [nd]).

(** [p.Item = v]. *)
Definition set_Item (p : ptr) (v : V) : M unit :=
  fun h =>
    nd <- load p h ;;
    match p with
    | Some a =>
      Ok (tt, <[a := mkNode (Weight nd) (Key nd) v (Left nd) (Right nd)]> h)
    | None => NilNode
    end.

Notation "x <~ e ;; k" := (bind e (fun x => k))
  (at level 20, e at level 99, k at level 200, only parsing).
Notation "' pat <~ e ;; k" := (bind e (fun x => match x with pat => k end))
  (at level 20, pat pattern, e at level 99, k at level 200, only parsing).

(** [func (t *Treap) leftRotation(n *Node) *Node].  The fields of the outer
    literal are evaluated in order, so the inner cell is allocated first. *)
Definition leftRotation (t : Treap) (n : ptr) : M ptr :=
  nd <~ rd (load n) ;;
  ld <~ rd (load (Left nd)) ;;
  inner <~ alloc (mkNode (Weight nd) (Key nd) (Item nd) (Right ld) (Right nd)) ;;
  alloc (mkNode (Weight ld) (Key ld) (Item ld) (Left ld) inner).

(** [func (t *Treap) rightRotation(n *Node) *Node]. *)
Definition rightRotation (t : Treap) (n : ptr) : M ptr :=
  nd <~ rd (load n) ;;
  rn <~ rd (load (Right nd)) ;;
  inner <~ alloc (mkNode (Weight nd) (Key nd) (Item nd) (Left nd) (Left rn)) ;;
  alloc (mkNode (Weight rn) (Key rn) (Item rn) inner (Right rn)).

(** [p != nil && t.handle.CompareWeights(p.Weight, w) < 0]: the guard of each
    rotation in [upsert], [&&] evaluating its right side only when it must. *)
Definition outranks (t : Treap) (p : ptr) (w : Z) : M bool :=
  match p with
  | None => ret false
  | Some _ =>
    hd <~ rd (fun _ => the_handle t) ;;
    pd <~ rd (load p) ;;
    c <~ rd (fun _ => call (CompareWeights hd) (Weight pd) w) ;;
    ret (c <? 0)
  end.

(** The last statement of [upsert]: [if ... { res = t.leftRotation(res) }
    else if ... { res = t.rightRotation(res) }]. *)
Definition rebalance (t : Treap) (res : ptr) : M ptr :=
  rn <~ rd (load res) ;;
  lt <~ outranks t (Left rn) (Weight rn) ;;
  if lt : bool then leftRotation t res
  else
    gt <~ outranks t (Right rn) (Weight rn) ;;
    if gt : bool then rightRotation t res else ret res.

(** [func (t *Treap) upsert(n *Node, k, v interface{}, w int, create, update bool,
    fn func( *Node) bool) (res *Node, created bool)].  [fn] may read the store.
    The fields of [n] that the rebuilt node copies are read after the
    recursive call, where the Go code reads them. *)
Fixpoint upsert (fuel : nat) (t : Treap) (n : ptr) (k : K) (v : V) (w : Z)
    (create update : bool) (fn : option (ptr -> heap -> bool)) : M (ptr * bool) :=
  match fuel with
  | O => fun _ => OutOfFuel
  | S fuel =>
    match n with
    | None =>
      if create then
        res <~ alloc (mkNode w k v None None) ;;
        ret (res, true)
      else ret (None, false)
    | Some _ =>
      hd <~ rd (fun _ => the_handle t) ;;
      nd <~ rd (load n) ;;
      c <~ rd (fun _ => call (CompareKeys hd) k (Key nd)) ;;
      if c =? -1 then
        '(res, created) <~ upsert fuel t (Left nd) k v w create update fn ;;
        match res with
        | None => ret (None, created)
        | Some _ =>
          nd <~ rd (load n) ;;
          res <~ alloc (mkNode (Weight nd) (Key nd) (Item nd) res (Right nd)) ;;
          res <~ rebalance t res ;;
          ret (res, created)
        end
      else if c =? 1 then
        '(res, created) <~ upsert fuel t (Right nd) k v w create update fn ;;
        match res with
        | None => ret (None, created)
        | Some _ =>
          nd <~ rd (load n) ;;
          res <~ alloc (mkNode (Weight nd) (Key nd) (Item nd) (Left nd) res) ;;
          res <~ rebalance t res ;;
          ret (res, created)
        end
      else if negb update then ret (None, false)
      else
        ignore <~ match fn with
                  | Some f => rd (fun h => Ok (negb (f n h)))
                  | None => ret false
                  end ;;
        if ignore : bool then ret (n, false)
        else
          res <~ alloc (mkNode w (Key nd) (Item nd) (Left nd) (Right nd)) ;;
          _ <~ (if create then set_Item res v else ret tt) ;;
          res <~ rebalance t res ;;
          ret (res, false)
    end
  end.

(** [func (t *Treap) Insert(n *Node, key, val interface{}, weight int)
    (new *Node, ok bool)]. *)
Definition Insert (fuel : nat) (t : Treap) (n : ptr) (key : K) (val : V) (weight : Z)
  : M (ptr * bool) :=
  upsert fuel t n key val weight true false None.

End Treap.

Arguments Node : clear implicits.
Arguments Handle : clear implicits.
Arguments Treap : clear implicits.
Arguments M : clear implicits.
Arguments load : simpl never.

(** The store of a program whose keys are of type [K] and items of type [V]. *)
Abbreviation heap K V := (list (Node K V)).

(** ** The trees that pointers stand for *)

(** The tree below a pointer, read off the store; [E] is the nil pointer. *)
Inductive tree (K V : Type) : Type :=
| E
| T (w : Z) (k : K) (v : V) (l r : tree K V).

Arguments E {K V}.
Arguments T {K V} w k v l r.

Section Model.

Context {K V : Type}.

Local Abbreviation tree := (tree K V).
Local Abbreviation heap := (heap K V).
Local Abbreviation Node := (Node K V).
Local Abbreviation M := (M K V).

(** [repr h p tr]: in store [h], the cells reachable from [p] form the finite
    tree [tr].  Cells may be shared between subtrees; a cycle has no [tr]. *)
Inductive repr (h : heap) : ptr -> tree -> Prop :=
| repr_nil : repr h None E
| repr_node (a : nat) (nd : Node) (l r : tree) :
    h !! a = Some nd ->
    repr h (Left nd) l ->
    repr h (Right nd) r ->
    repr h (Some a) (T (Weight nd) (Key nd) (Item nd) l r).

Fixpoint height (tr : tree) : nat :=
  match tr with
  | E => O
  | T _ _ _ l r => S (Nat.max (height l) (height r))
  end.

(** In-order traversal: the keys with their items, left to right. *)
Fixpoint elements (tr : tree) : list (K * V) :=
  match tr with
  | E => []
  | T _ k v l r => elements l ++ (k, v) :: elements r
  end.

Definition keys (tr : tree) : list K := map fst (elements tr).

(** Every key of the tree satisfies [P]. *)
Fixpoint all_keys (P : K -> Prop) (tr : tree) : Prop :=
  match tr with
  | E => True
  | T _ k _ l r => P k /\ all_keys P l /\ all_keys P r
  end.

(** Every weight of the tree satisfies [P]. *)
Fixpoint all_weights (P : Z -> Prop) (tr : tree) : Prop :=
  match tr with
  | E => True
  | T w _ _ l r => P w /\ all_weights P l /\ all_weights P r
  end.

(** [P] holds of the two subtrees of the root. *)
Definition below_root (P : tree -> Prop) (tr : tree) : Prop :=
  match tr with
  | E => True
  | T _ _ _ l r => P l /\ P r
  end.

(** A step only allocates: the store it leaves extends the one it found. *)
Definition grows {A : Type} (m : M A) : Prop :=
  forall h a h', m h = Ok (a, h') -> h `prefix_of` h'.

Section Functional.

(** The two comparators, as total functions. *)
Variable ck : K -> K -> Z.
Variable cw : Z -> Z -> Z.

(** A treap whose handle holds [cw] and [ck]. *)
Definition uses (t : Treap K) : Prop :=
  handle t = Some (mkHandle (Some cw) (Some ck)).

(** The search-tree invariant of section 3 of the specification: below every
    node, the keys on the left compare less than the node's key ([ck] gives
    -1) and the keys on the right compare greater ([ck] gives 1). *)
Fixpoint bst (tr : tree) : Prop :=
  match tr with
  | E => True
  | T _ k _ l r =>
    all_keys (fun x => ck x k = -1) l /\ all_keys (fun x => ck x k = 1) r /\
    bst l /\ bst r
  end.

(** [ordered_child c w]: a child [c] of a node of weight [w] is not ranked
    strictly above it. *)
Definition ordered_child (c : tree) (w : Z) : Prop :=
  match c with
  | E => True
  | T wc _ _ _ _ => cw wc w >= 0
  end.

(** The heap invariant of section 3 of the specification. *)
Fixpoint heap_ordered (tr : tree) : Prop :=
  match tr with
  | E => True
  | T w _ _ l r =>
    ordered_child l w /\ ordered_child r w /\ heap_ordered l /\ heap_ordered r
  end.

(** *** What the methods compute, on trees

    Each function below follows its Go method statement by statement, with
    the tree in place of the pointer; [GetNode_repr], [Get_repr],
    [rebalance_repr] and [Insert_repr] prove that the methods compute them. *)

Fixpoint GetNodeT (n : tree) (key : K) : tree * bool :=
  match n with
  | E => (E, false)
  | T _ k _ l r =>
    let comp := ck key k in
    if comp <? 0 then GetNodeT l key
    else if comp >? 0 then GetNodeT r key
    else (n, true)
  end.

Definition GetT (n : tree) (key : K) : option V * bool :=
  match GetNodeT n key with
  | (T _ _ v _ _, true) => (Some v, true)
  | _ => (None, false)
  end.

Definition leftRotationT (n : tree) : tree :=
  match n with
  | T w k v (T lw lk lv ll lr) r => T lw lk lv ll (T w k v lr r)
  | _ => n
  end.

Definition rightRotationT (n : tree) : tree :=
  match n with
  | T w k v l (T rw rk rv rl rr) => T rw rk rv (T w k v l rl) rr
  | _ => n
  end.

Definition outranksT (c : tree) (w : Z) : bool :=
  match c with
  | E => false
  | T wc _ _ _ _ => cw wc w <? 0
  end.

Definition rebalanceT (res : tree) : tree :=
  match res with
  | E => E
  | T w _ _ l r =>
    if outranksT l w then leftRotationT res
    else if outranksT r w then rightRotationT res
    else res
  end.

(** [upsert] with the arguments [Insert] passes: [create = true],
    [update = false], [fn = nil]. *)
Fixpoint InsertT (n : tree) (k : K) (v : V) (w : Z) : tree * bool :=
  match n with
  | E => (T w k v E E, true)
  | T nw nk nv l r =>
    let c := ck k nk in
    if c =? -1 then
      match InsertT l k v w with
      | (E, created) => (E, created)
      | (res, created) => (rebalanceT (T nw nk nv res r), created)
      end
    else if c =? 1 then
      match InsertT r k v w with
      | (E, created) => (E, created)
      | (res, created) => (rebalanceT (T nw nk nv l res), created)
      end
    else (E, false)
  end.

Fixpoint Min_loopT (n : tree) : tree :=
  match n with
  | E => E
  | T _ _ _ l _ =>
    match l with
    | E => n
    | T _ _ _ _ _ => Min_loopT l
    end
  end.

Fixpoint Max_loopT (n : tree) : tree :=
  match n with
  | E => E
  | T _ _ _ _ r =>
    match r with
    | E => n
    | T _ _ _ _ _ => Max_loopT r
    end
  end.

Definition item_of (n : tree) : option V :=
  match n with
  | E => None
  | T _ _ v _ _ => Some v
  end.

(** *** The comparator contract (section 4.1 of the specification) *)

(** "Compares less", per the key comparator. *)
Definition klt (a b : K) : Prop := ck a b = -1.

(** [ck] is a strict total order on keys that answers -1, 0 or 1. *)
Record KeyOrder : Prop := {
  ck_range : forall a b, ck a b = -1 \/ ck a b = 0 \/ ck a b = 1;
  ck_eq : forall a b, ck a b = 0 <-> a = b;
  ck_flip : forall a b, ck a b = -1 <-> ck b a = 1;
  ck_trans : forall a b c, ck a b = -1 -> ck b c = -1 -> ck a c = -1
}.

(** What the heap invariant needs of [cw]: "does not outrank" ([cw a b >= 0])
    is transitive, and of two weights at most one outranks the other.  Every
    total order on weights, in either direction, is an instance. *)
Record WeightOrder : Prop := {
  cw_asym : forall a b, cw a b < 0 -> cw b a >= 0;
  cw_trans : forall a b c, cw a b >= 0 -> cw b c >= 0 -> cw a c >= 0
}.

(** Insertion into a list of bindings sorted by key; [None] when the key is
    there already.  It is how [Insert] acts on the in-order traversal
    ([InsertT_elements]). *)
Fixpoint ins (k : K) (v : V) (l : list (K * V)) : option (list (K * V)) :=
  match l with
  | [] => Some [(k, v)]
  | (k', v') :: l' =>
    let c := ck k k' in
    if c =? -1 then Some ((k, v) :: l)
    else if c =? 1 then option_map (cons (k', v')) (ins k v l')
    else None
  end.

(** The bindings of a list inserted one after the other; [None] as soon as
    one of them finds its key. *)
Fixpoint ins_all (l : list (K * V * Z)) (acc : list (K * V))
  : option (list (K * V)) :=
  match l with
  | [] => Some acc
  | (k, v, _) :: l' =>
    match ins k v acc with
    | Some acc' => ins_all l' acc'
    | None => None
    end
  end.

(** *** Trees built by [Insert] *)

(** [reachable t h n]: the root [n] of store [h] was obtained from the empty
    tree by calls of [t.Insert].  Every call returns a new root and leaves
    the earlier roots in the store. *)
Inductive reachable (t : Treap K) : heap -> ptr -> Prop :=
| reachable_empty (h : heap) : reachable t h None
| reachable_Insert (h h' : heap) (n n' : ptr) (fuel : nat)
    (k : K) (v : V) (w : Z) (created : bool) :
    reachable t h n ->
    Insert fuel t n k v w h = Ok ((n', created), h') ->
    reachable t h' n'
| reachable_earlier (h h' : heap) (n m m' : ptr) (fuel : nat)
    (k : K) (v : V) (w : Z) (created : bool) :
    reachable t h n ->
    reachable t h m ->
    Insert fuel t m k v w h = Ok ((m', created), h') ->
    reachable t h' n.

(** [t.Insert] of each binding of a list in turn, from root [n]; a call that
    finds its key present returns nil and the next one starts over. *)
Fixpoint InsertAll (fuel : nat) (t : Treap K) (n : ptr) (l : list (K * V * Z))
  : M ptr :=
  match l with
  | [] => ret n
  | (k, v, w) :: l' =>
    bind (Insert fuel t n k v w) (fun r => InsertAll fuel t (fst r) l')
  end.

End Functional.

End Model.

Arguments rebalanceT : simpl never.

(** ** Treaps and comparators for the scenarios *)

(** The treap a caller holds after [NewTreap(&Handle{cw, ck})]. *)
Definition treap_of {K : Type} (ck : K -> K -> Z) (cw : Z -> Z -> Z) : Treap K :=
  {| handle := Some (mkHandle (Some cw) (Some ck)); root := None |}.

(** [t] with its [root] field set to [n] ("the root is set by user"). *)
Definition with_root {K : Type} (t : Treap K) (n : ptr) : Treap K :=
  {| handle := handle t; root := n |}.

(** A three-way comparison of integers that answers -1, 0 or 1. *)
Definition Zcmp (a b : Z) : Z :=
  match a ?= b with
  | Lt => -1
  | Eq => 0
  | Gt => 1
  end.

(** A comparison of integers by difference: its sign is right, its value is
    any integer. *)
Definition Zsub (a b : Z) : Z := a - b.

(** A treap over integer keys and items, and two of its stores: [ex_heap1]
    after [Insert(nil, 5, 50, 10)], whose root is the cell 0, and [ex_heap2]
    after [Insert] of key 3 with weight 5 into that root, where the new leaf
    was rotated above key 5; its root is the cell 4. *)
Definition ex_treap : Treap Z := treap_of Zcmp Zcmp.

Definition ex_heap1 : heap Z Z := [mkNode 10 5 50 None None].

(** A store that no run of [Insert] builds: the root, cell 1, has key 5 and
    for right child the cell 0 of key 3, which also outranks it. *)
Definition ex_heap_unordered : heap Z Z :=
  [mkNode 0 3 30 None None; mkNode 1 5 50 None (Some 0%nat)].

Definition ex_heap2 : heap Z Z :=
  [mkNode 10 5 50 None None;
   mkNode 5 3 30 None None;
   mkNode 10 5 50 (Some 1%nat) None;
   mkNode 10 5 50 None None;
   mkNode 5 3 30 None (Some 3%nat)].

(** ** The whole of upsert, on trees *)

Section UpsertModel.

Context {K V : Type}.

Variable ck : K -> K -> Z.
Variable cw : Z -> Z -> Z.

(** [upsert] for every value of its flags, statement by statement, with the
    tree in place of the pointer ([upsert_repr] proves that the method
    computes it).  [reject] is the value of [fn != nil && !fn(n)] at the node
    where the search stops; [fn] is called there and nowhere else. *)
Fixpoint upsertT (n : tree K V) (k : K) (v : V) (w : Z)
    (create update reject : bool) : tree K V * bool :=
  match n with
  | E => if create then (T w k v E E, true) else (E, false)
  | T nw nk nv l r =>
    let c := ck k nk in
    if c =? -1 then
      match upsertT l k v w create update reject with
      | (E, created) => (E, created)
      | (res, created) => (rebalanceT cw (T nw nk nv res r), created)
      end
    else if c =? 1 then
      match upsertT r k v w create update reject with
      | (E, created) => (E, created)
      | (res, created) => (rebalanceT cw (T nw nk nv l res), created)
      end
    else if negb update then (E, false)
    else if reject then (n, false)
    else (rebalanceT cw (T w nk (if create then v else nv) l r), false)
  end.

(** [stops_at h n k a]: the descent of [upsert] for key [k] from root [n] in
    store [h] ends at the cell [a], where the comparator answers neither -1
    nor 1. *)
Inductive stops_at (h : heap K V) (k : K) : ptr -> nat -> Prop :=
| stops_here (a : nat) (nd : Node K V) :
    h !! a = Some nd -> ck k (Key nd) <> -1 -> ck k (Key nd) <> 1 ->
    stops_at h k (Some a) a
| stops_left (a b : nat) (nd : Node K V) :
    h !! a = Some nd -> ck k (Key nd) = -1 -> stops_at h k (Left nd) b ->
    stops_at h k (Some a) b
| stops_right (a b : nat) (nd : Node K V) :
    h !! a = Some nd -> ck k (Key nd) = 1 -> stops_at h k (Right nd) b ->
    stops_at h k (Some a) b.

(** [fn_answers fn h n k reject]: [fn != nil && !fn(n')] is [reject] at the
    node [n'] where the descent for [k] from [n] ends, if it ends at one. *)
Definition fn_answers (fn : option (ptr -> heap K V -> bool)) (h : heap K V)
    (n : ptr) (k : K) (reject : bool) : Prop :=
  match fn with
  | None => reject = false
  | Some f => forall a, stops_at h k n a -> negb (f (Some a) h) = reject
  end.

(** The weight, key and item of the root of a tree. *)
Definition root_fields (tr : tree K V) : option (Z * K * V) :=
  match tr with
  | E => None
  | T w k v _ _ => Some (w, k, v)
  end.

(** The bindings of a list, with the item of key [k] replaced by [v]. *)
Definition set_item (k : K) (v : V) (l : list (K * V)) : list (K * V) :=
  map (fun b => if ck k (fst b) =? 0 then (fst b, v) else b) l.

End UpsertModel.

(** ** Tactics for the key order *)

(** The three answers [ck a b] can give, under [Hck : KeyOrder ck]. *)
Ltac ck_cases ck Hck a b :=
  let H := fresh "Hc" in
  destruct (ck_range ck Hck a b) as [H|[H|H]].

(** Closes a goal whose hypotheses on [ck] contradict the order: equal keys
    are identified, "greater" is turned around, and "less" is chained. *)
Ltac ck_absurd ck Hck :=
  exfalso;
  repeat match goal with
         | H : ck ?a ?b = 0 |- _ => apply (ck_eq ck Hck) in H; subst
         end;
  repeat match goal with
         | H : ck ?a ?b = 1 |- _ => apply (ck_flip ck Hck) in H
         end;
  repeat match goal with
         | H1 : ck ?a ?b = -1, H2 : ck ?b ?c = -1 |- _ =>
           lazymatch goal with
           | _ : ck a c = -1 |- _ => fail
           | _ => pose proof (ck_trans ck Hck a b c H1 H2)
           end
         end;
  repeat match goal with
         | H : ck ?a ?a = -1 |- _ =>
           rewrite (proj2 (ck_eq ck Hck a a) eq_refl) in H
         end;
  discriminate.

(** * Properties *)

(** ** The store only grows *)

Section Store.

Context {K V : Type}.

Local Abbreviation tree := (tree K V).
Local Abbreviation heap := (heap K V).
Local Abbreviation Node := (Node K V).
Local Abbreviation M := (M K V).

Implicit Types (h : heap) (p n : ptr) (nd : Node) (tr : tree) (t : Treap K).
Implicit Types (k key : K) (v val : V) (w weight : Z).

Lemma load_Ok p h nd :
  load p h = Ok nd <-> exists a, p = Some a /\ h !! a = Some nd.
Proof.
  unfold load. split.
  - destruct p as [a|]; [|discriminate].
    destruct (h !! a) eqn:Ha; [|discriminate].
    intros [= ->]. eauto.
  - intros (a & -> & ->). reflexivity.
Qed.

Lemma repr_prefix h h' p tr :
  h `prefix_of` h' -> repr h p tr -> repr h' p tr.
Proof.
  intros Hp. induction 1 as [|a nd l r Ha _ IHl _ IHr].
  - constructor.
  - constructor; [|assumption..].
    eapply prefix_lookup_Some; eassumption.
Qed.

Lemma repr_inj h p tr1 tr2 : repr h p tr1 -> repr h p tr2 -> tr1 = tr2.
Proof.
  intros H1. revert tr2.
  induction H1 as [|a nd l r Ha _ IHl _ IHr]; intros tr2 H2.
  - inversion H2. reflexivity.
  - inversion H2 as [|a' nd' l' r' Ha' Hl' Hr']; subst.
    rewrite Ha in Ha'. injection Ha' as <-.
    f_equal; [apply IHl | apply IHr]; assumption.
Qed.

Lemma repr_nil_inv h tr : repr h None tr -> tr = E.
Proof. inversion 1. reflexivity. Qed.

Lemma repr_E_inv h p : repr h p E -> p = None.
Proof. inversion 1. reflexivity. Qed.

(** The steps of the monad, one by one. *)

Lemma grows_ret {A : Type} (a : A) : grows (K:=K) (V:=V) (ret a).
Proof. intros h a' h' [= _ <-]. reflexivity. Qed.

Lemma grows_rd {A : Type} (r : heap -> outcome A) : grows (rd r).
Proof.
  intros h a h'. unfold rd. destruct (r h); simpl; try discriminate.
  intros [= _ <-]. reflexivity.
Qed.

Lemma grows_alloc nd : grows (alloc nd).
Proof. intros h a h' [= _ <-]. apply prefix_app_r. reflexivity. Qed.

Lemma grows_bind {A B : Type} (m : M A) (k : A -> M B) :
  grows m -> (forall a, grows (k a)) -> grows (bind m k).
Proof.
  intros Hm Hk h b h'. unfold bind.
  destruct (m h) as [[a h1]| | | |] eqn:E1; simpl; try discriminate.
  intros E2. etransitivity; [eapply Hm | eapply Hk]; eassumption.
Qed.

(** Writing the item of the cell just allocated leaves the older cells alone. *)
Lemma grows_alloc_set_Item {A : Type} nd (c : bool) (v : V) (k : ptr -> M A) :
  (forall p, grows (k p)) ->
  grows (bind (alloc nd) (fun res =>
         bind (if c then set_Item res v else ret tt) (fun _ => k res))).
Proof.
  intros Hk h a h'. unfold bind at 1. simpl.
  destruct c.
  - unfold bind, set_Item, load. simpl.
    rewrite lookup_app_r by lia. rewrite Nat.sub_diag. simpl.
    replace (length h) with (length h + 0)%nat at 2 by lia.
    rewrite insert_app_r. simpl.
    intros E2. apply Hk in E2.
    etransitivity; [|exact E2]. apply prefix_app_r. reflexivity.
  - unfold bind. simpl.
    intros E2. apply Hk in E2.
    etransitivity; [|exact E2]. apply prefix_app_r. reflexivity.
Qed.

Lemma grows_leftRotation t n : grows (leftRotation (V:=V) t n).
Proof.
  unfold leftRotation.
  repeat (apply grows_bind; [first [apply grows_rd | apply grows_alloc]|intros ?]).
  apply grows_alloc.
Qed.

Lemma grows_rightRotation t n : grows (rightRotation (V:=V) t n).
Proof.
  unfold rightRotation.
  repeat (apply grows_bind; [first [apply grows_rd | apply grows_alloc]|intros ?]).
  apply grows_alloc.
Qed.

Lemma grows_outranks t p w : grows (outranks (V:=V) t p w).
Proof.
  unfold outranks. destruct p; [|apply grows_ret].
  repeat (apply grows_bind; [apply grows_rd|intros ?]).
  apply grows_ret.
Qed.

Lemma grows_rebalance t res : grows (rebalance (V:=V) t res).
Proof.
  unfold rebalance.
  apply grows_bind; [apply grows_rd|intros rn].
  apply grows_bind; [apply grows_outranks|intros [|]].
  - apply grows_leftRotation.
  - apply grows_bind; [apply grows_outranks|intros [|]].
    + apply grows_rightRotation.
    + apply grows_ret.
Qed.

Lemma grows_upsert fuel t n k v w create update fn :
  grows (upsert fuel t n k v w create update fn).
Proof.
  revert n. induction fuel as [|fuel IH]; intros n; simpl.
  - intros h a h'. discriminate.
  - destruct n as [a|].
    + repeat (apply grows_bind; [apply grows_rd|intros ?]).
      repeat match goal with |- grows (if ?b then _ else _) => destruct b end.
      * apply grows_bind; [apply IH|intros [[res|] created]].
        -- apply grows_bind; [apply grows_rd|intros ?].
           apply grows_bind; [apply grows_alloc|intros ?].
           apply grows_bind; [apply grows_rebalance|intros ?].
           apply grows_ret.
        -- apply grows_ret.
      * apply grows_bind; [apply IH|intros [[res|] created]].
        -- apply grows_bind; [apply grows_rd|intros ?].
           apply grows_bind; [apply grows_alloc|intros ?].
           apply grows_bind; [apply grows_rebalance|intros ?].
           apply grows_ret.
        -- apply grows_ret.
      * apply grows_ret.
      * apply grows_bind.
        { destruct fn; [apply grows_rd | apply grows_ret]. }
        intros [|]; [apply grows_ret|].
        apply grows_alloc_set_Item. intros p.
        apply grows_bind; [apply grows_rebalance|intros ?].
        apply grows_ret.
    + destruct create.
      * apply grows_bind; [apply grows_alloc|intros ?]. apply grows_ret.
      * apply grows_ret.
Qed.

Lemma grows_Insert fuel t n key val weight :
  grows (Insert fuel t n key val weight).
Proof. apply grows_upsert. Qed.

(** A lookup reads the cells of the tree below its root and no other, so
    cells appended later change none of its results, whatever the fuel. *)

Lemma load_repr_prefix h h' p tr :
  h `prefix_of` h' -> repr h p tr -> load p h' = load p h.
Proof.
  intros Hp. destruct 1 as [|a nd l r Ha _ _]; [reflexivity|].
  unfold load. rewrite Ha, (prefix_lookup_Some _ _ _ _ Ha Hp). reflexivity.
Qed.

Lemma GetNode_prefix fuel t n key h h' tr :
  h `prefix_of` h' -> repr h n tr ->
  GetNode fuel t n key h' = GetNode fuel t n key h.
Proof.
  intros Hp Hn. revert fuel.
  induction Hn as [|a nd l r Ha _ IHl _ IHr]; intros [|fuel]; try reflexivity.
  cbn [GetNode].
  destruct (the_handle t) as [hd| | | |]; cbn [obind]; try reflexivity.
  unfold load. rewrite Ha, (prefix_lookup_Some _ _ _ _ Ha Hp). cbn [obind].
  destruct (call (CompareKeys hd) key (Key nd)) as [c| | | |]; cbn [obind];
    try reflexivity.
  destruct (c <? 0); [apply IHl|].
  destruct (c >? 0); [apply IHr|].
  reflexivity.
Qed.

Lemma GetNode_subtree fuel t n key h tr n' found :
  repr h n tr -> GetNode fuel t n key h = Ok (n', found) ->
  exists tr', repr h n' tr'.
Proof.
  intros Hn. revert fuel.
  induction Hn as [|a nd l r Ha Hl IHl Hr IHr]; intros [|fuel];
    cbn [GetNode]; try discriminate.
  - intros [= <- _]. exists E. constructor.
  - destruct (the_handle t) as [hd| | | |]; cbn [obind]; try discriminate.
    unfold load. rewrite Ha. cbn [obind].
    destruct (call (CompareKeys hd) key (Key nd)) as [c| | | |]; cbn [obind];
      try discriminate.
    destruct (c <? 0); [apply IHl|].
    destruct (c >? 0); [apply IHr|].
    intros [= <- _]. eexists. econstructor; eassumption.
Qed.

Lemma Get_prefix fuel t n key h h' tr :
  h `prefix_of` h' -> repr h n tr ->
  Get fuel t n key h' = Get fuel t n key h.
Proof.
  intros Hp Hn. unfold Get. rewrite (GetNode_prefix _ _ _ _ _ _ _ Hp Hn).
  destruct (GetNode fuel t n key h) as [[n' found]| | | |] eqn:Hg;
    cbn [obind]; try reflexivity.
  destruct found; [|reflexivity].
  destruct (GetNode_subtree _ _ _ _ _ _ _ _ Hn Hg) as [tr' Hn'].
  rewrite (load_repr_prefix _ _ _ _ Hp Hn'). reflexivity.
Qed.

End Store.

(** ** The methods compute the functions on trees *)

Section Refinement.

Context {K V : Type}.

Local Abbreviation tree := (tree K V).
Local Abbreviation heap := (heap K V).
Local Abbreviation Node := (Node K V).
Local Abbreviation M := (M K V).

Implicit Types (h : heap) (p n : ptr) (nd : Node) (tr : tree) (t : Treap K).
Implicit Types (k key : K) (v val : V) (w weight : Z).

Variable ck : K -> K -> Z.
Variable cw : Z -> Z -> Z.

Lemma bind_Ok {A B : Type} (m : M A) (f : A -> M B) h a h' :
  m h = Ok (a, h') -> bind m f h = f a h'.
Proof. unfold bind. intros ->. reflexivity. Qed.

Lemma bind_rd {A B : Type} (r : heap -> outcome A) (f : A -> M B) h a :
  r h = Ok a -> bind (rd r) f h = f a h.
Proof. unfold bind, rd. intros ->. reflexivity. Qed.

Lemma bind_alloc {B : Type} nd (f : ptr -> M B) h :
  bind (alloc nd) f h = f (Some (length h)) (h ++ [nd]).
Proof. reflexivity. Qed.

Lemma the_handle_uses t :
  uses ck cw t -> the_handle t = Ok (mkHandle (Some cw) (Some ck)).
Proof. unfold uses, the_handle. intros ->. reflexivity. Qed.

Lemma lookup_fresh h nd : (h ++ [nd]) !! length h = Some nd.
Proof. apply list_lookup_middle. reflexivity. Qed.

Lemma prefix_snoc h nd : h `prefix_of` h ++ [nd].
Proof. apply prefix_app_r. reflexivity. Qed.

Lemma repr_root h a nd l r :
  h !! a = Some nd -> repr h (Left nd) l -> repr h (Right nd) r ->
  forall w k v, w = Weight nd -> k = Key nd -> v = Item nd ->
  repr h (Some a) (T w k v l r).
Proof. intros Ha Hl Hr w k v -> -> ->. constructor; assumption. Qed.

Lemma repr_T_inv h p w k v l r :
  repr h p (T w k v l r) ->
  exists a nd, p = Some a /\ h !! a = Some nd /\
    w = Weight nd /\ k = Key nd /\ v = Item nd /\
    repr h (Left nd) l /\ repr h (Right nd) r.
Proof.
  inversion 1 as [|a nd l' r' Ha Hl Hr]; subst.
  exists a, nd. repeat split; assumption.
Qed.

Lemma GetNode_repr fuel t n key h tr :
  uses ck cw t -> repr h n tr -> (height tr < fuel)%nat ->
  exists n', GetNode fuel t n key h = Ok (n', snd (GetNodeT ck tr key)) /\
             repr h n' (fst (GetNodeT ck tr key)).
Proof.
  intros Ht Hr. revert fuel.
  induction Hr as [|a nd l r Ha Hl IHl Hr IHr]; intros fuel Hf.
  - destruct fuel as [|fuel]; [simpl in Hf; lia|].
    exists None. split; [reflexivity | constructor].
  - destruct fuel as [|fuel]; [simpl in Hf; lia|].
    simpl in Hf. cbn [GetNode GetNodeT].
    rewrite (the_handle_uses _ Ht). cbn [obind].
    unfold load. rewrite Ha. cbn [obind call CompareKeys].
    destruct (ck key (Key nd) <? 0).
    { apply IHl. lia. }
    destruct (ck key (Key nd) >? 0).
    { apply IHr. lia. }
    exists (Some a). split; [reflexivity|]. cbn [fst].
    constructor; assumption.
Qed.

Lemma GetNodeT_found tr key tr' :
  GetNodeT ck tr key = (tr', true) -> tr' <> E.
Proof.
  induction tr as [|w k v l IHl r IHr]; cbn [GetNodeT].
  - discriminate.
  - destruct (ck key k <? 0); [exact IHl|].
    destruct (ck key k >? 0); [exact IHr|].
    intros [= <-]. discriminate.
Qed.

Lemma GetNodeT_missing tr key tr' :
  GetNodeT ck tr key = (tr', false) -> tr' = E.
Proof.
  induction tr as [|w k v l IHl r IHr]; cbn [GetNodeT].
  - intros [= <-]. reflexivity.
  - destruct (ck key k <? 0); [exact IHl|].
    destruct (ck key k >? 0); [exact IHr|].
    discriminate.
Qed.

Lemma Get_repr fuel t n key h tr :
  uses ck cw t -> repr h n tr -> (height tr < fuel)%nat ->
  Get fuel t n key h = Ok (GetT ck tr key).
Proof.
  intros Ht Hr Hf.
  destruct (GetNode_repr fuel t n key h tr Ht Hr Hf) as (n' & Hg & Hn').
  unfold Get, GetT. rewrite Hg. cbn [obind].
  destruct (GetNodeT ck tr key) as [tr' [|]] eqn:Hm; cbn [fst snd] in *.
  - apply GetNodeT_found in Hm.
    destruct tr' as [|w' k' v' l' r']; [congruence|].
    apply repr_T_inv in Hn' as (a & nd & -> & Ha & _ & _ & -> & _).
    unfold load. rewrite Ha. reflexivity.
  - apply GetNodeT_missing in Hm. subst tr'. reflexivity.
Qed.

Lemma outranks_repr t p w h c :
  uses ck cw t -> repr h p c ->
  outranks t p w h = Ok (outranksT cw c w, h).
Proof.
  intros Ht Hp. destruct Hp as [|a nd l r Ha _ _]; [reflexivity|].
  unfold outranks.
  rewrite (bind_rd _ _ _ _ (the_handle_uses _ Ht)).
  erewrite bind_rd by (unfold load; rewrite Ha; reflexivity).
  reflexivity.
Qed.

Lemma leftRotation_repr t n h w k v lw lk lv ll lr r :
  repr h n (T w k v (T lw lk lv ll lr) r) ->
  exists p h', leftRotation t n h = Ok (p, h') /\ h `prefix_of` h' /\
               repr h' p (T lw lk lv ll (T w k v lr r)).
Proof.
  intros Hn.
  apply repr_T_inv in Hn as (a & nd & -> & Ha & -> & -> & -> & Hl & Hr).
  apply repr_T_inv in Hl as (b & ld & Hb & Hld & -> & -> & -> & Hll & Hlr).
  unfold leftRotation.
  erewrite bind_rd by (unfold load; rewrite Ha; reflexivity).
  erewrite bind_rd by (rewrite Hb; unfold load; rewrite Hld; reflexivity).
  rewrite bind_alloc.
  set (c1 := mkNode _ _ _ (Right ld) _). set (c2 := mkNode _ _ _ _ _).
  exists (Some (length (h ++ [c1]))), ((h ++ [c1]) ++ [c2]).
  split; [reflexivity|].
  assert (Hp1 : h `prefix_of` h ++ [c1]) by apply prefix_snoc.
  assert (Hp2 : h `prefix_of` (h ++ [c1]) ++ [c2]).
  { etransitivity; [exact Hp1 | apply prefix_snoc]. }
  split; [exact Hp2|].
  eapply repr_root; [apply lookup_fresh| | |reflexivity..]; cbn [Left Right c2].
  - eapply repr_prefix; eassumption.
  - eapply repr_root;
      [apply lookup_app_l_Some, lookup_fresh| | |reflexivity..];
      cbn [Left Right c1]; eapply repr_prefix; eassumption.
Qed.

Lemma rightRotation_repr t n h w k v l rw rk rv rl rr :
  repr h n (T w k v l (T rw rk rv rl rr)) ->
  exists p h', rightRotation t n h = Ok (p, h') /\ h `prefix_of` h' /\
               repr h' p (T rw rk rv (T w k v l rl) rr).
Proof.
  intros Hn.
  apply repr_T_inv in Hn as (a & nd & -> & Ha & -> & -> & -> & Hl & Hr).
  apply repr_T_inv in Hr as (b & rn & Hb & Hrn & -> & -> & -> & Hrl & Hrr).
  unfold rightRotation.
  erewrite bind_rd by (unfold load; rewrite Ha; reflexivity).
  erewrite bind_rd by (rewrite Hb; unfold load; rewrite Hrn; reflexivity).
  rewrite bind_alloc.
  set (c1 := mkNode _ _ _ _ (Left rn)). set (c2 := mkNode _ _ _ _ _).
  exists (Some (length (h ++ [c1]))), ((h ++ [c1]) ++ [c2]).
  split; [reflexivity|].
  assert (Hp1 : h `prefix_of` h ++ [c1]) by apply prefix_snoc.
  assert (Hp2 : h `prefix_of` (h ++ [c1]) ++ [c2]).
  { etransitivity; [exact Hp1 | apply prefix_snoc]. }
  split; [exact Hp2|].
  eapply repr_root; [apply lookup_fresh| | |reflexivity..]; cbn [Left Right c2].
  - eapply repr_root;
      [apply lookup_app_l_Some, lookup_fresh| | |reflexivity..];
      cbn [Left Right c1]; eapply repr_prefix; eassumption.
  - eapply repr_prefix; eassumption.
Qed.

Lemma outranksT_true (c : tree) w : outranksT cw c w = true -> c <> E.
Proof. destruct c; [discriminate|]. intros _. discriminate. Qed.

Lemma rebalance_repr t res h w k v l r :
  uses ck cw t -> repr h res (T w k v l r) ->
  exists p h', rebalance t res h = Ok (p, h') /\ h `prefix_of` h' /\
               repr h' p (rebalanceT cw (T w k v l r)).
Proof.
  intros Ht Hres.
  pose proof Hres as Hinv.
  apply repr_T_inv in Hinv as (a & nd & -> & Ha & -> & -> & -> & Hl & Hr).
  unfold rebalance.
  erewrite bind_rd by (unfold load; rewrite Ha; reflexivity).
  erewrite bind_Ok by (eapply outranks_repr; eassumption).
  unfold rebalanceT.
  destruct (outranksT cw l (Weight nd)) eqn:Ol.
  { apply outranksT_true in Ol. destruct l; [congruence|].
    eapply leftRotation_repr; eassumption. }
  erewrite bind_Ok by (eapply outranks_repr; eassumption).
  destruct (outranksT cw r (Weight nd)) eqn:Or.
  { apply outranksT_true in Or. destruct r; [congruence|].
    eapply rightRotation_repr; eassumption. }
  exists (Some a), h. split; [reflexivity|]. split; [reflexivity|]. exact Hres.
Qed.

Lemma rebalanceT_not_E tr : tr <> E -> rebalanceT cw tr <> E.
Proof.
  destruct tr as [|w k v l r]; [congruence|]. intros _. unfold rebalanceT.
  destruct (outranksT cw l w) eqn:Ol.
  { destruct l; [discriminate|]. discriminate. }
  destruct (outranksT cw r w) eqn:Or.
  { destruct r; [discriminate|]. discriminate. }
  discriminate.
Qed.

Lemma Insert_repr fuel t n k v w h tr :
  uses ck cw t -> repr h n tr -> (height tr < fuel)%nat ->
  exists n' h',
    Insert fuel t n k v w h = Ok ((n', snd (InsertT ck cw tr k v w)), h') /\
    h `prefix_of` h' /\
    repr h' n' (fst (InsertT ck cw tr k v w)).
Proof.
  intros Ht. unfold Insert. revert fuel n h.
  induction tr as [|nw nk nv l IHl r IHr]; intros fuel n h Hn Hf.
  - apply repr_E_inv in Hn as ->.
    destruct fuel as [|fuel]; [simpl in Hf; lia|].
    cbn [upsert InsertT fst snd]. rewrite bind_alloc. unfold ret.
    eexists _, _. split; [reflexivity|]. split; [apply prefix_snoc|].
    eapply repr_root; [apply lookup_fresh| | |reflexivity..];
      cbn [Left Right]; constructor.
  - pose proof Hn as Hinv.
    apply repr_T_inv in Hinv as (a & nd & -> & Ha & -> & -> & -> & Hl & Hr).
    destruct fuel as [|fuel]; [simpl in Hf; lia|].
    simpl in Hf. cbn [upsert InsertT].
    rewrite (bind_rd _ _ _ _ (the_handle_uses _ Ht)).
    erewrite bind_rd by (unfold load; rewrite Ha; reflexivity).
    erewrite bind_rd by reflexivity. cbn [CompareKeys].
    destruct (ck k (Key nd) =? -1).
    { destruct (IHl fuel (Left nd) h Hl ltac:(lia)) as (n1 & h1 & E1 & P1 & R1).
      erewrite bind_Ok by exact E1.
      destruct (InsertT ck cw l k v w) as [res created]. cbn [fst snd] in *.
      destruct res as [|rw rk rv rl rr].
      - apply repr_E_inv in R1 as ->. unfold ret.
        exists None, h1. repeat split; [assumption | constructor].
      - pose proof R1 as R1'.
        apply repr_T_inv in R1' as (b & bd & -> & _).
        erewrite bind_rd
          by (unfold load; rewrite (prefix_lookup_Some _ _ _ _ Ha P1); reflexivity).
        rewrite bind_alloc.
        set (c := mkNode _ _ _ _ _).
        destruct (rebalance_repr t (Some (length h1)) (h1 ++ [c])
                    (Weight nd) (Key nd) (Item nd) (T rw rk rv rl rr) r Ht)
          as (p & h2 & E2 & P2 & R2).
        { eapply repr_root; [apply lookup_fresh| | |reflexivity..];
            cbn [Left Right c].
          - eapply repr_prefix; [apply prefix_snoc | exact R1].
          - eapply repr_prefix; [|exact Hr].
            etransitivity; [exact P1 | apply prefix_snoc]. }
        erewrite bind_Ok by exact E2. unfold ret.
        exists p, h2. split; [reflexivity|]. split; [|exact R2].
        etransitivity; [exact P1|]. etransitivity; [apply prefix_snoc|exact P2]. }
    destruct (ck k (Key nd) =? 1).
    { destruct (IHr fuel (Right nd) h Hr ltac:(lia)) as (n1 & h1 & E1 & P1 & R1).
      erewrite bind_Ok by exact E1.
      destruct (InsertT ck cw r k v w) as [res created]. cbn [fst snd] in *.
      destruct res as [|rw rk rv rl rr].
      - apply repr_E_inv in R1 as ->. unfold ret.
        exists None, h1. repeat split; [assumption | constructor].
      - pose proof R1 as R1'.
        apply repr_T_inv in R1' as (b & bd & -> & _).
        erewrite bind_rd
          by (unfold load; rewrite (prefix_lookup_Some _ _ _ _ Ha P1); reflexivity).
        rewrite bind_alloc.
        set (c := mkNode _ _ _ _ _).
        destruct (rebalance_repr t (Some (length h1)) (h1 ++ [c])
                    (Weight nd) (Key nd) (Item nd) l (T rw rk rv rl rr) Ht)
          as (p & h2 & E2 & P2 & R2).
        { eapply repr_root; [apply lookup_fresh| | |reflexivity..];
            cbn [Left Right c].
          - eapply repr_prefix; [|exact Hl].
            etransitivity; [exact P1 | apply prefix_snoc].
          - eapply repr_prefix; [apply prefix_snoc | exact R1]. }
        erewrite bind_Ok by exact E2. unfold ret.
        exists p, h2. split; [reflexivity|]. split; [|exact R2].
        etransitivity; [exact P1|]. etransitivity; [apply prefix_snoc|exact P2]. }
    cbn [negb]. unfold ret. cbn [fst snd].
    exists None, h. repeat split; [reflexivity | constructor].
Qed.

End Refinement.

(** ** Search-tree facts *)

Section Keys.

Context {K V : Type}.

Local Abbreviation tree := (tree K V).

Implicit Types (tr l r : tree) (k key : K) (v : V) (w : Z).

Lemma all_keys_impl (P Q : K -> Prop) tr :
  (forall x, P x -> Q x) -> all_keys P tr -> all_keys Q tr.
Proof.
  intros HPQ. induction tr as [|w k v l IHl r IHr]; simpl; [trivial|].
  intros (Hk & Hl & Hr). auto.
Qed.

Lemma all_keys_Forall (P : K -> Prop) tr :
  all_keys P tr <-> Forall P (keys tr).
Proof.
  unfold keys. induction tr as [|w k v l IHl r IHr]; simpl.
  - split; [constructor | trivial].
  - rewrite map_app, Forall_app. simpl. rewrite Forall_cons, IHl, IHr. tauto.
Qed.

Variable ck : K -> K -> Z.
Variable cw : Z -> Z -> Z.

Lemma elements_rebalanceT tr : elements (rebalanceT cw tr) = elements tr.
Proof.
  destruct tr as [|w k v l r]; [reflexivity|]. unfold rebalanceT.
  destruct (outranksT cw l w).
  { destruct l as [|lw lk lv ll lr]; [reflexivity|]. simpl.
    rewrite <- app_assoc. reflexivity. }
  destruct (outranksT cw r w); [|reflexivity].
  destruct r as [|rw rk rv rl rr]; [reflexivity|]. simpl.
  rewrite <- app_assoc. reflexivity.
Qed.

Lemma all_keys_rebalanceT (P : K -> Prop) tr :
  all_keys P (rebalanceT cw tr) <-> all_keys P tr.
Proof.
  rewrite !all_keys_Forall. unfold keys. rewrite elements_rebalanceT. tauto.
Qed.

Lemma all_keys_InsertT (P : K -> Prop) tr k v w :
  P k -> all_keys P tr -> all_keys P (fst (InsertT ck cw tr k v w)).
Proof.
  intros Hk. induction tr as [|nw nk nv l IHl r IHr]; cbn [InsertT].
  - simpl. auto.
  - intros (Hnk & Hl & Hr).
    destruct (ck k nk =? -1).
    { destruct (InsertT ck cw l k v w) as [[|rw rk rv rl rr] created];
        [exact I|].
      cbn [fst] in *. apply all_keys_rebalanceT. simpl. simpl in IHl. auto. }
    destruct (ck k nk =? 1); [|exact I].
    destruct (InsertT ck cw r k v w) as [[|rw rk rv rl rr] created];
      [exact I|].
    cbn [fst] in *. apply all_keys_rebalanceT. simpl. simpl in IHr. auto.
Qed.

Hypothesis Hck : KeyOrder ck.

Lemma ck_lt_gt a b c : ck a b = -1 -> ck c b = 1 -> ck a c = -1.
Proof.
  intros Hab Hcb. apply (ck_flip ck Hck) in Hcb.
  eapply (ck_trans ck Hck); eassumption.
Qed.

Lemma ck_refl a : ck a a = 0.
Proof. apply (ck_eq ck Hck). reflexivity. Qed.

Lemma bst_rebalanceT tr : bst ck tr -> bst ck (rebalanceT cw tr).
Proof.
  destruct tr as [|w k v l r]; [trivial|]. unfold rebalanceT.
  destruct (outranksT cw l w).
  { destruct l as [|lw lk lv ll lr]; [trivial|].
    simpl. intros ((Hlk & Hll & Hlr) & Hr & (Hll' & Hlr' & Bll & Blr) & Br).
    repeat split; try assumption.
    - apply (ck_flip ck Hck). exact Hlk.
    - eapply all_keys_impl; [|exact Hr]. intros x Hx. simpl in Hx.
      apply (ck_flip ck Hck). apply (ck_flip ck Hck) in Hx.
      eapply (ck_trans ck Hck); eassumption. }
  destruct (outranksT cw r w); [|trivial].
  destruct r as [|rw rk rv rl rr]; [trivial|].
  simpl. intros (Hl & (Hrk & Hrl & Hrr) & Bl & (Hrl' & Hrr' & Brl & Brr)).
  repeat split; try assumption.
  - apply (ck_flip ck Hck). exact Hrk.
  - eapply all_keys_impl; [|exact Hl]. intros x Hx. simpl in Hx.
    eapply ck_lt_gt; [exact Hx|].
    apply (ck_flip ck Hck). apply (ck_flip ck Hck). exact Hrk.
Qed.

Lemma bst_InsertT tr k v w : bst ck tr -> bst ck (fst (InsertT ck cw tr k v w)).
Proof.
  induction tr as [|nw nk nv l IHl r IHr]; cbn [InsertT].
  - simpl. auto.
  - intros (Hl & Hr & Bl & Br).
    destruct (ck k nk =? -1) eqn:E1.
    { apply Z.eqb_eq in E1.
      pose proof (all_keys_InsertT (fun x => ck x nk = -1) l k v w E1 Hl) as Hl'.
      specialize (IHl Bl).
      destruct (InsertT ck cw l k v w) as [[|rw rk rv rl rr] created];
        [exact I|].
      cbn [fst] in *. apply bst_rebalanceT. cbn [bst]. auto. }
    destruct (ck k nk =? 1) eqn:E2; [|exact I].
    apply Z.eqb_eq in E2.
    pose proof (all_keys_InsertT (fun x => ck x nk = 1) r k v w E2 Hr) as Hr'.
    specialize (IHr Br).
    destruct (InsertT ck cw r k v w) as [[|rw rk rv rl rr] created];
      [exact I|].
    cbn [fst] in *. apply bst_rebalanceT. cbn [bst]. auto.
Qed.

(** The two readings of the search-tree invariant agree. *)

Lemma StronglySorted_app_iff (R : K -> K -> Prop) (l1 l2 : list K) :
  StronglySorted R (l1 ++ l2) <->
  StronglySorted R l1 /\ StronglySorted R l2 /\
  Forall (fun x => Forall (R x) l2) l1.
Proof.
  induction l1 as [|a l1 IH]; simpl.
  - split; [intros H; repeat split; [constructor | exact H | constructor]
           | tauto].
  - split.
    + intros H. apply StronglySorted_inv in H as [Hs Ha].
      apply IH in Hs as (H1 & H2 & H12).
      apply Forall_app in Ha as [Ha1 Ha2].
      repeat split; [constructor | | constructor]; assumption.
    + intros (H1 & H2 & H12).
      apply StronglySorted_inv in H1 as [Hs Ha].
      apply Forall_cons in H12 as [Ha2 H12].
      constructor; [apply IH; auto | apply Forall_app; auto].
Qed.

Lemma bst_sorted tr : bst ck tr <-> StronglySorted (klt ck) (keys tr).
Proof.
  unfold keys. induction tr as [|w k v l IHl r IHr]; simpl.
  - split; [constructor | trivial].
  - rewrite map_app. simpl. rewrite StronglySorted_app_iff.
    rewrite IHl, IHr.
    rewrite !all_keys_Forall. unfold keys.
    split.
    + intros (Hl & Hr & Sl & Sr). repeat split; [assumption| |].
      * constructor; [assumption|].
        eapply Forall_impl; [exact Hr|]. intros x Hx.
        apply (ck_flip ck Hck). exact Hx.
      * eapply Forall_impl; [exact Hl|]. intros x Hx.
        constructor; [exact Hx|].
        eapply Forall_impl; [exact Hr|]. intros y Hy.
        exact (ck_lt_gt x k y Hx Hy).
    + intros (Sl & Skr & Hlr).
      apply StronglySorted_inv in Skr as [Sr Hr].
      repeat split; try assumption.
      * eapply Forall_impl; [exact Hlr|]. intros x Hx.
        apply Forall_cons in Hx as [Hx _]. exact Hx.
      * eapply Forall_impl; [exact Hr|]. intros x Hx.
        apply (ck_flip ck Hck). exact Hx.
Qed.

End Keys.

(** ** Lookups after an insertion *)

Section Lookups.

Context {K V : Type}.

Local Abbreviation tree := (tree K V).

Implicit Types (tr l r : tree) (k key : K) (v : V) (w : Z).

Variable ck : K -> K -> Z.
Variable cw : Z -> Z -> Z.

Lemma GetT_node w k v l r key :
  GetT ck (T w k v l r) key =
  if ck key k <? 0 then GetT ck l key
  else if ck key k >? 0 then GetT ck r key
  else (Some v, true).
Proof.
  unfold GetT. cbn [GetNodeT].
  destruct (ck key k <? 0); [reflexivity|].
  destruct (ck key k >? 0); reflexivity.
Qed.

(** A key that [GetNode] finds makes [Insert] a no-op that returns nil,
    whatever the comparator answers. *)
Lemma InsertT_present tr k v w :
  snd (GetNodeT ck tr k) = true -> InsertT ck cw tr k v w = (E, false).
Proof.
  induction tr as [|nw nk nv l IHl r IHr]; cbn [GetNodeT InsertT].
  - discriminate.
  - destruct (ck k nk =? -1) eqn:E1.
    { apply Z.eqb_eq in E1. rewrite E1. simpl.
      intros H. rewrite (IHl H). reflexivity. }
    destruct (ck k nk =? 1) eqn:E2; [|reflexivity].
    apply Z.eqb_eq in E2. rewrite E2. simpl.
    intros H. rewrite (IHr H). reflexivity.
Qed.

(** A key that [GetNode] misses is created, when the comparator answers
    -1, 0 or 1 only. *)
Lemma InsertT_absent tr k v w :
  (forall a b, ck a b = -1 \/ ck a b = 0 \/ ck a b = 1) ->
  snd (GetNodeT ck tr k) = false ->
  snd (InsertT ck cw tr k v w) = true /\ fst (InsertT ck cw tr k v w) <> E.
Proof.
  intros Hrange.
  induction tr as [|nw nk nv l IHl r IHr]; cbn [GetNodeT InsertT].
  - intros _. split; [reflexivity | discriminate].
  - destruct (Hrange k nk) as [H|[H|H]]; rewrite H; simpl.
    + intros Hm. destruct (IHl Hm) as [Hc Hne].
      destruct (InsertT ck cw l k v w) as [[|rw rk rv rl rr] created];
        [cbn in Hne; congruence|].
      cbn [fst snd] in *. split; [exact Hc|].
      apply rebalanceT_not_E. discriminate.
    + discriminate.
    + intros Hm. destruct (IHr Hm) as [Hc Hne].
      destruct (InsertT ck cw r k v w) as [[|rw rk rv rl rr] created];
        [cbn in Hne; congruence|].
      cbn [fst snd] in *. split; [exact Hc|].
      apply rebalanceT_not_E. discriminate.
Qed.

(** The nil that [Insert] returns always comes with [created = false]. *)
Lemma InsertT_E tr k v w created :
  InsertT ck cw tr k v w = (E, created) -> created = false.
Proof.
  induction tr as [|nw nk nv l IHl r IHr]; cbn [InsertT].
  - discriminate.
  - destruct (ck k nk =? -1).
    { destruct (InsertT ck cw l k v w) as [[|rw rk rv rl rr] c].
      + exact IHl.
      + intros [= H _]. exfalso. revert H. apply rebalanceT_not_E. discriminate. }
    destruct (ck k nk =? 1); [|intros [= <-]; reflexivity].
    destruct (InsertT ck cw r k v w) as [[|rw rk rv rl rr] c].
    + exact IHr.
    + intros [= H _]. exfalso. revert H. apply rebalanceT_not_E. discriminate.
Qed.

Hypothesis Hck : KeyOrder ck.

Lemma GetT_rebalanceT tr key :
  bst ck tr -> GetT ck (rebalanceT cw tr) key = GetT ck tr key.
Proof.
  destruct tr as [|w k v l r]; [reflexivity|]. unfold rebalanceT.
  destruct (outranksT cw l w).
  { destruct l as [|lw lk lv ll lr]; [reflexivity|].
    cbn [leftRotationT]. simpl. intros ((Hlk & _) & _).
    rewrite !GetT_node.
    ck_cases ck Hck key k; ck_cases ck Hck key lk;
      repeat match goal with
             | H : ck _ _ = _ |- _ => rewrite H
             end;
      rewrite ?(ck_refl ck Hck); simpl; try reflexivity; ck_absurd ck Hck. }
  destruct (outranksT cw r w); [|reflexivity].
  destruct r as [|rw rk rv rl rr]; [reflexivity|].
  cbn [rightRotationT]. simpl. intros (_ & (Hrk & _) & _).
  rewrite !GetT_node.
  ck_cases ck Hck key k; ck_cases ck Hck key rk;
    repeat match goal with
           | H : ck _ _ = _ |- _ => rewrite H
           end;
    rewrite ?(ck_refl ck Hck); simpl; try reflexivity; ck_absurd ck Hck.
Qed.

Lemma GetT_InsertT tr k v w tr' :
  bst ck tr -> InsertT ck cw tr k v w = (tr', true) ->
  GetT ck tr' k = (Some v, true).
Proof.
  revert tr'. induction tr as [|nw nk nv l IHl r IHr]; intros tr';
    cbn [InsertT].
  - intros _ [= <-]. rewrite GetT_node, (ck_refl ck Hck). reflexivity.
  - intros (Hl & Hr & Bl & Br).
    destruct (ck k nk =? -1) eqn:E1.
    { apply Z.eqb_eq in E1.
      pose proof (all_keys_InsertT ck cw (fun x => ck x nk = -1) l k v w E1 Hl)
        as Hl'.
      pose proof (bst_InsertT ck cw Hck l k v w Bl) as Bl'.
      destruct (InsertT ck cw l k v w) as [[|rw rk rv rl rr] created] eqn:EI.
      { apply InsertT_E in EI. subst created. discriminate. }
      cbn [fst] in *. intros [= <- ->].
      rewrite GetT_rebalanceT by (cbn [bst]; auto).
      rewrite GetT_node, E1. simpl. apply IHl; [assumption | reflexivity]. }
    destruct (ck k nk =? 1) eqn:E2; [|discriminate].
    apply Z.eqb_eq in E2.
    pose proof (all_keys_InsertT ck cw (fun x => ck x nk = 1) r k v w E2 Hr)
      as Hr'.
    pose proof (bst_InsertT ck cw Hck r k v w Br) as Br'.
    destruct (InsertT ck cw r k v w) as [[|rw rk rv rl rr] created] eqn:EI.
    { apply InsertT_E in EI. subst created. discriminate. }
    cbn [fst] in *. intros [= <- ->].
    rewrite GetT_rebalanceT by (cbn [bst]; auto).
    rewrite GetT_node, E2. simpl. apply IHr; [assumption | reflexivity].
Qed.

End Lookups.

(** ** Heap-order facts *)

Section Weights.

Context {K V : Type}.

Local Abbreviation tree := (tree K V).

Implicit Types (tr l r : tree) (k key : K) (v : V) (w x : Z).

Variable ck : K -> K -> Z.
Variable cw : Z -> Z -> Z.
Hypothesis Hcw : WeightOrder cw.

(** [above x tr]: no weight of [tr] outranks [x]. *)
Local Abbreviation above x := (all_weights (fun y => cw y x >= 0)).

Lemma above_ordered_child tr x : above x tr -> ordered_child cw tr x.
Proof. destruct tr; simpl; [trivial|]. intros (H & _). exact H. Qed.

Lemma heap_ordered_above tr x :
  heap_ordered cw tr -> ordered_child cw tr x -> above x tr.
Proof.
  revert x. induction tr as [|w k v l IHl r IHr]; intros x; simpl; [trivial|].
  intros (Hl & Hr & Ol & Or) Hx. repeat split; [exact Hx| |].
  - apply IHl; [exact Ol|]. destruct l; simpl in *; [trivial|].
    eapply (cw_trans cw Hcw); eassumption.
  - apply IHr; [exact Or|]. destruct r; simpl in *; [trivial|].
    eapply (cw_trans cw Hcw); eassumption.
Qed.

Lemma outranksT_false tr x : ordered_child cw tr x -> outranksT cw tr x = false.
Proof.
  destruct tr as [|w k v l r]; simpl; [reflexivity|].
  intros H. apply Z.ltb_ge. lia.
Qed.

(** One rotation at each level of the unwinding is enough: the tree that
    [Insert] returns is heap-ordered, and only its root can carry a weight
    that outranks what the input tree was below. *)
Lemma heap_ordered_InsertT tr k v w :
  heap_ordered cw tr ->
  heap_ordered cw (fst (InsertT ck cw tr k v w)) /\
  forall x, above x tr ->
    below_root (above x) (fst (InsertT ck cw tr k v w)) /\
    (cw w x >= 0 -> above x (fst (InsertT ck cw tr k v w))).
Proof.
  induction tr as [|nw nk nv l IHl r IHr]; cbn [InsertT].
  - intros _. simpl. auto.
  - intros (Hl & Hr & Ol & Or).
    destruct (ck k nk =? -1).
    { destruct (IHl Ol) as [Hres Hx]. clear IHl IHr.
      destruct (InsertT ck cw l k v w) as [[|rw rk rv rl rr] created];
        [simpl; auto|].
      cbn [fst] in *.
      destruct (Hx nw (heap_ordered_above l nw Ol Hl)) as [(Arl & Arr) _].
      destruct Hres as (Hrl & Hrr & Orl & Orr).
      unfold rebalanceT. cbn [outranksT].
      destruct (cw rw nw <? 0) eqn:Hlt.
      - apply Z.ltb_lt in Hlt. pose proof (cw_asym cw Hcw _ _ Hlt) as Hge.
        cbn [leftRotationT]. split.
        + simpl. repeat split; try assumption.
          apply above_ordered_child. exact Arr.
        + intros x (Hnx & Alx & Arx).
          destruct (Hx x Alx) as [(Arl' & Arr') Hroot].
          split; [simpl; auto|].
          intros Hw. destruct (Hroot Hw) as (Hrw & _). simpl. auto.
      - apply Z.ltb_ge in Hlt. rewrite (outranksT_false r nw Hr). split.
        + simpl. repeat split; try assumption. lia.
        + intros x (Hnx & Alx & Arx).
          destruct (Hx x Alx) as [(Arl' & Arr') Hroot].
          assert (Hrx : cw rw x >= 0).
          { eapply (cw_trans cw Hcw); [|exact Hnx]. lia. }
          split; simpl; auto. }
    destruct (ck k nk =? 1); [|simpl; auto].
    destruct (IHr Or) as [Hres Hx]. clear IHl IHr.
    destruct (InsertT ck cw r k v w) as [[|rw rk rv rl rr] created];
      [simpl; auto|].
    cbn [fst] in *.
    destruct (Hx nw (heap_ordered_above r nw Or Hr)) as [(Arl & Arr) _].
    destruct Hres as (Hrl & Hrr & Orl & Orr).
    unfold rebalanceT. rewrite (outranksT_false l nw Hl). cbn [outranksT].
    destruct (cw rw nw <? 0) eqn:Hlt.
    + apply Z.ltb_lt in Hlt. pose proof (cw_asym cw Hcw _ _ Hlt) as Hge.
      cbn [rightRotationT]. split.
      * simpl. repeat split; try assumption.
        apply above_ordered_child. exact Arl.
      * intros x (Hnx & Alx & Arx).
        destruct (Hx x Arx) as [(Arl' & Arr') Hroot].
        split; [simpl; auto|].
        intros Hw. destruct (Hroot Hw) as (Hrw & _). simpl. auto.
    + apply Z.ltb_ge in Hlt. split.
      * simpl. repeat split; try assumption. lia.
      * intros x (Hnx & Alx & Arx).
        destruct (Hx x Arx) as [(Arl' & Arr') Hroot].
        assert (Hrx : cw rw x >= 0).
        { eapply (cw_trans cw Hcw); [|exact Hnx]. lia. }
        split; simpl; auto.
Qed.

End Weights.

(** ** The in-order traversal after an insertion; Min and Max *)

Section Traversal.

Context {K V : Type}.

Local Abbreviation tree := (tree K V).
Local Abbreviation heap := (heap K V).

Implicit Types (tr : tree) (k key : K) (v : V) (w : Z) (h : heap).
Implicit Types (n p : ptr) (t : Treap K).

Variable ck : K -> K -> Z.
Variable cw : Z -> Z -> Z.

Lemma ins_app_lt k v nk nv (l1 l2 : list (K * V)) :
  ck k nk = -1 ->
  ins ck k v (l1 ++ (nk, nv) :: l2) =
  option_map (fun l' => l' ++ (nk, nv) :: l2) (ins ck k v l1).
Proof.
  intros Hlt. induction l1 as [|[k' v'] l1 IH]; simpl.
  - rewrite Hlt. reflexivity.
  - destruct (ck k k' =? -1); [reflexivity|].
    destruct (ck k k' =? 1); [|reflexivity].
    rewrite IH. destruct (ins ck k v l1); reflexivity.
Qed.

Lemma ins_app_gt k v (l1 l2 : list (K * V)) :
  Forall (fun x => ck k x = 1) (map fst l1) ->
  ins ck k v (l1 ++ l2) = option_map (app l1) (ins ck k v l2).
Proof.
  induction l1 as [|[k' v'] l1 IH]; simpl.
  - intros _. destruct (ins ck k v l2); reflexivity.
  - intros H. apply Forall_cons in H as [Hk H]. simpl in Hk.
    rewrite Hk. simpl. rewrite (IH H).
    destruct (ins ck k v l2); reflexivity.
Qed.

Lemma height_elements tr : (height tr <= length (elements tr))%nat.
Proof.
  induction tr as [|w k v l IHl r IHr]; simpl; [lia|].
  rewrite length_app. simpl. lia.
Qed.

Lemma elements_nil tr : elements tr = [] -> tr = E.
Proof.
  destruct tr as [|w k v l r]; [reflexivity|]. simpl.
  intros H. apply app_eq_nil in H as [_ H]. discriminate.
Qed.

Lemma head_elements tr :
  item_of (Min_loopT tr) = option_map snd (head (elements tr)).
Proof.
  induction tr as [|w k v l IHl r IHr]; [reflexivity|].
  cbn [Min_loopT elements].
  destruct l as [|lw lk lv ll lr]; [reflexivity|].
  rewrite IHl.
  destruct (elements (T lw lk lv ll lr)) as [|x xs] eqn:El; [|reflexivity].
  apply elements_nil in El. discriminate.
Qed.

Lemma last_elements tr :
  item_of (Max_loopT tr) = option_map snd (last (elements tr)).
Proof.
  induction tr as [|w k v l IHl r IHr]; [reflexivity|].
  cbn [Max_loopT elements].
  destruct r as [|rw rk rv rl rr].
  - simpl. rewrite last_snoc. reflexivity.
  - rewrite IHr.
    destruct (elements (T rw rk rv rl rr)) as [|x xs] eqn:Er.
    { apply elements_nil in Er. discriminate. }
    rewrite last_app_cons, last_cons_cons. reflexivity.
Qed.

Lemma Min_loop_repr fuel n h w k v (l r : tree) :
  repr h n (T w k v l r) -> (height (T w k v l r) <= fuel)%nat ->
  exists n', Min_loop fuel n h = Ok n' /\
             repr h n' (Min_loopT (T w k v l r)) /\
             Min_loopT (T w k v l r) <> E.
Proof.
  revert fuel n w k v r.
  induction l as [|lw lk lv ll IHl lr _]; intros fuel n w k v r Hn Hf;
    pose proof Hn as Hinv;
    apply repr_T_inv in Hinv as (a & nd & -> & Ha & _ & _ & _ & Hl & _);
    (destruct fuel as [|fuel]; [simpl in Hf; lia|]);
    cbn [Min_loop]; unfold load; rewrite Ha; cbn [obind].
  - apply repr_E_inv in Hl as ->.
    exists (Some a). repeat split; [exact Hn | discriminate].
  - pose proof Hl as Hl'.
    apply repr_T_inv in Hl' as (b & _ & Hb & _).
    rewrite Hb in *. apply IHl; [exact Hl|]. simpl in Hf. simpl. lia.
Qed.

Lemma Max_loop_repr fuel n h w k v (l r : tree) :
  repr h n (T w k v l r) -> (height (T w k v l r) <= fuel)%nat ->
  exists n', Max_loop fuel n h = Ok n' /\
             repr h n' (Max_loopT (T w k v l r)) /\
             Max_loopT (T w k v l r) <> E.
Proof.
  revert fuel n w k v l.
  induction r as [|rw rk rv rl _ rr IHr]; intros fuel n w k v l Hn Hf;
    pose proof Hn as Hinv;
    apply repr_T_inv in Hinv as (a & nd & -> & Ha & _ & _ & _ & _ & Hr);
    (destruct fuel as [|fuel]; [simpl in Hf; lia|]);
    cbn [Max_loop]; unfold load; rewrite Ha; cbn [obind].
  - apply repr_E_inv in Hr as ->.
    exists (Some a). repeat split; [exact Hn | discriminate].
  - pose proof Hr as Hr'.
    apply repr_T_inv in Hr' as (b & _ & Hb & _).
    rewrite Hb in *. apply IHr; [exact Hr|]. simpl in Hf. simpl. lia.
Qed.

Lemma load_repr h n w k v (l r : tree) :
  repr h n (T w k v l r) -> exists nd, load n h = Ok nd /\ Item nd = v.
Proof.
  intros Hn. apply repr_T_inv in Hn as (a & nd & -> & Ha & _ & _ & -> & _).
  exists nd. unfold load. rewrite Ha. split; reflexivity.
Qed.

(** [Min] returns the item of the leftmost node, that is, of the first
    binding of the in-order traversal. *)
Lemma Min_repr fuel t h tr :
  repr h (root t) tr -> (height tr <= fuel)%nat ->
  Min fuel t h = Ok (option_map snd (head (elements tr))).
Proof.
  intros Hr Hf. rewrite <- head_elements. unfold Min.
  destruct tr as [|w k v l r].
  - apply repr_E_inv in Hr. rewrite Hr. reflexivity.
  - destruct (Min_loop_repr fuel _ h w k v l r Hr Hf) as (n' & Hn' & Hm & Hne).
    pose proof Hr as Hr'. apply repr_T_inv in Hr' as (a & _ & Hroot & _).
    rewrite Hroot in *. rewrite Hn'. cbn [obind].
    destruct (Min_loopT (T w k v l r)) as [|mw mk mv ml mr]; [congruence|].
    destruct (load_repr _ _ _ _ _ _ _ Hm) as (nd & -> & <-). reflexivity.
Qed.

Lemma Max_repr fuel t h tr :
  repr h (root t) tr -> (height tr <= fuel)%nat ->
  Max fuel t h = Ok (option_map snd (last (elements tr))).
Proof.
  intros Hr Hf. rewrite <- last_elements. unfold Max.
  destruct tr as [|w k v l r].
  - apply repr_E_inv in Hr. rewrite Hr. reflexivity.
  - destruct (Max_loop_repr fuel _ h w k v l r Hr Hf) as (n' & Hn' & Hm & Hne).
    pose proof Hr as Hr'. apply repr_T_inv in Hr' as (a & _ & Hroot & _).
    rewrite Hroot in *. rewrite Hn'. cbn [obind].
    destruct (Max_loopT (T w k v l r)) as [|mw mk mv ml mr]; [congruence|].
    destruct (load_repr _ _ _ _ _ _ _ Hm) as (nd & -> & <-). reflexivity.
Qed.

Hypothesis Hck : KeyOrder ck.

(** On the in-order traversal of a search tree, [Insert] is the insertion
    into a sorted list. *)
Lemma InsertT_elements tr k v w :
  bst ck tr ->
  match ins ck k v (elements tr) with
  | Some l' =>
    snd (InsertT ck cw tr k v w) = true /\
    fst (InsertT ck cw tr k v w) <> E /\
    elements (fst (InsertT ck cw tr k v w)) = l'
  | None => InsertT ck cw tr k v w = (E, false)
  end.
Proof.
  induction tr as [|nw nk nv l IHl r IHr]; cbn [InsertT elements].
  - intros _. simpl. repeat split. discriminate.
  - intros (Hl & Hr & Bl & Br).
    destruct (ck k nk =? -1) eqn:E1.
    { apply Z.eqb_eq in E1. rewrite (ins_app_lt _ _ _ _ _ _ E1).
      specialize (IHl Bl). clear IHr.
      destruct (ins ck k v (elements l)) as [l'|]; cbn [option_map].
      - destruct IHl as (Hc & Hne & Hel).
        destruct (InsertT ck cw l k v w) as [[|rw rk rv rl rr] created];
          [cbn in Hne; congruence|].
        cbn [fst snd] in *. split; [exact Hc|].
        split; [apply rebalanceT_not_E; discriminate|].
        rewrite elements_rebalanceT. cbn [elements]. rewrite <- Hel.
        reflexivity.
      - rewrite IHl. reflexivity. }
    apply Z.eqb_neq in E1.
    assert (Hall : Forall (fun x => ck k x = 1) (map fst (elements l))).
    { apply (proj1 (all_keys_Forall (fun x => ck k x = 1) l)).
      eapply all_keys_impl; [|exact Hl]. intros x Hx. simpl in Hx.
      apply (ck_flip ck Hck).
      destruct (ck_range ck Hck k nk) as [H|[H|H]]; [congruence| |].
      - apply (ck_eq ck Hck) in H. subst nk. exact Hx.
      - eapply (ck_trans ck Hck); [exact Hx|]. apply (ck_flip ck Hck). exact H. }
    rewrite (ins_app_gt _ _ _ _ Hall). cbn [ins].
    rewrite (proj2 (Z.eqb_neq _ _) E1).
    destruct (ck k nk =? 1) eqn:E2; [|reflexivity].
    specialize (IHr Br). clear IHl.
    destruct (ins ck k v (elements r)) as [l'|]; cbn [option_map].
    + destruct IHr as (Hc & Hne & Hel).
      destruct (InsertT ck cw r k v w) as [[|rw rk rv rl rr] created];
        [cbn in Hne; congruence|].
      cbn [fst snd] in *. split; [exact Hc|].
      split; [apply rebalanceT_not_E; discriminate|].
      rewrite elements_rebalanceT. cbn [elements]. rewrite <- Hel.
      reflexivity.
    + rewrite IHr. reflexivity.
Qed.

(** One call of [Insert] on a search tree whose traversal is known. *)
Lemma Insert_step fuel t n k v w h tr (l l' : list (K * V)) :
  uses ck cw t -> repr h n tr -> bst ck tr ->
  elements tr = l -> (length l < fuel)%nat -> ins ck k v l = Some l' ->
  exists n' h' tr',
    Insert fuel t n k v w h = Ok ((n', true), h') /\
    h `prefix_of` h' /\ repr h' n' tr' /\ bst ck tr' /\ elements tr' = l'.
Proof.
  intros Ht Hn Hb <- Hf Hi.
  assert (Hh : (height tr < fuel)%nat).
  { pose proof (height_elements tr). lia. }
  destruct (Insert_repr ck cw fuel t n k v w h tr Ht Hn Hh)
    as (n' & h' & HI & Hp & Hr).
  pose proof (InsertT_elements tr k v w Hb) as He. rewrite Hi in He.
  destruct He as (Hc & _ & He). rewrite Hc in HI.
  exists n', h', (fst (InsertT ck cw tr k v w)).
  repeat split; try assumption.
  apply bst_InsertT; assumption.
Qed.

Lemma ins_Permutation k v (l l' : list (K * V)) :
  ins ck k v l = Some l' -> Permutation l' ((k, v) :: l).
Proof.
  revert l'. induction l as [|[k' v'] l IH]; intros l'; simpl.
  - intros [= <-]. reflexivity.
  - destruct (ck k k' =? -1); [intros [= <-]; reflexivity|].
    destruct (ck k k' =? 1); [|discriminate].
    destruct (ins ck k v l) as [l1|]; [|discriminate].
    intros [= <-]. rewrite (IH l1 eq_refl). apply perm_swap.
Qed.

Lemma ins_fresh k v (l : list (K * V)) :
  k ∉ map fst l -> exists l', ins ck k v l = Some l'.
Proof.
  induction l as [|[k' v'] l IH]; simpl.
  - eauto.
  - intros [Hne Hin]%not_elem_of_cons.
    destruct (ck_range ck Hck k k') as [H|[H|H]]; rewrite H; simpl.
    + eauto.
    + apply (ck_eq ck Hck) in H. congruence.
    + destruct (IH Hin) as [l' ->]. simpl. eauto.
Qed.

(** Bindings with distinct keys are all inserted. *)
Lemma ins_all_fresh (l : list (K * V * Z)) (acc : list (K * V)) :
  NoDup (map fst (map fst l ++ acc)) ->
  exists l', ins_all ck l acc = Some l' /\ Permutation l' (map fst l ++ acc).
Proof.
  revert acc. induction l as [|[[k v] w] l IH]; intros acc; simpl.
  - intros _. exists acc. split; reflexivity.
  - intros [Hk Hnd]%NoDup_cons.
    destruct (ins_fresh k v acc) as [acc' Hacc].
    { intros Hin. apply Hk. rewrite map_app. apply elem_of_app. auto. }
    rewrite Hacc. pose proof (ins_Permutation _ _ _ _ Hacc) as Hp.
    assert (Hp2 : Permutation (map fst l ++ acc') ((k, v) :: map fst l ++ acc)).
    { rewrite Hp. symmetry. apply Permutation_middle. }
    destruct (IH acc') as (l' & Hl' & Hp').
    + rewrite Hp2. simpl. apply NoDup_cons. auto.
    + exists l'. split; [exact Hl'|]. rewrite Hp'. exact Hp2.
Qed.

Lemma ins_length k v (l l' : list (K * V)) :
  ins ck k v l = Some l' -> length l' = S (length l).
Proof.
  intros H. apply ins_Permutation, Permutation_length in H. exact H.
Qed.

(** A run of [Insert] over a list of bindings, on the in-order traversal. *)
Lemma InsertAll_elements fuel t n h tr (l : list (K * V * Z)) (acc acc' : list (K * V)) :
  uses ck cw t -> repr h n tr -> bst ck tr -> elements tr = acc ->
  (length acc + length l <= fuel)%nat ->
  ins_all ck l acc = Some acc' ->
  exists r h' tr',
    InsertAll fuel t n l h = Ok (r, h') /\
    repr h' r tr' /\ bst ck tr' /\ elements tr' = acc'.
Proof.
  intros Ht. revert n h tr acc.
  induction l as [|[[k v] w] l IH]; intros n h tr acc Hn Hb He Hf; simpl.
  - intros [= <-]. exists n, h, tr. auto.
  - destruct (ins ck k v acc) as [acc1|] eqn:Hi; [|discriminate].
    intros Hall. simpl in Hf.
    destruct (Insert_step fuel t n k v w h tr acc acc1 Ht Hn Hb He
                ltac:(lia) Hi) as (n1 & h1 & tr1 & I1 & _ & R1 & B1 & E1).
    erewrite bind_Ok by exact I1. cbn [fst].
    apply (IH n1 h1 tr1 acc1 R1 B1 E1); [|exact Hall].
    rewrite (ins_length _ _ _ _ Hi). lia.
Qed.

(** Two lists of bindings sorted by key that hold the same bindings are
    equal. *)
Lemma sorted_Permutation_eq (l1 l2 : list (K * V)) :
  StronglySorted (klt ck) (map fst l1) ->
  StronglySorted (klt ck) (map fst l2) ->
  Permutation l1 l2 -> l1 = l2.
Proof.
  revert l2. induction l1 as [|x l1 IH]; intros l2 S1 S2 Hp.
  - apply Permutation_nil in Hp. congruence.
  - destruct l2 as [|y l2].
    { symmetry in Hp. apply Permutation_nil in Hp. discriminate. }
    simpl in S1, S2.
    apply StronglySorted_inv in S1 as [S1 F1].
    apply StronglySorted_inv in S2 as [S2 F2].
    assert (Hxy : x = y).
    { assert (Hx : In x (y :: l2)).
      { apply (Permutation_in _ Hp). left. reflexivity. }
      assert (Hy : In y (x :: l1)).
      { apply (Permutation_in _ (Permutation_sym Hp)). left. reflexivity. }
      destruct Hx as [Hx|Hx]; [congruence|].
      destruct Hy as [Hy|Hy]; [congruence|].
      exfalso.
      apply (in_map fst) in Hx, Hy.
      rewrite Forall_forall in F1, F2.
      apply list_elem_of_In in Hx, Hy.
      pose proof (F1 _ Hy) as H1. pose proof (F2 _ Hx) as H2.
      unfold klt in H1, H2.
      pose proof (ck_trans ck Hck _ _ _ H1 H2) as H3.
      rewrite (ck_refl ck Hck) in H3. discriminate. }
    subst y. f_equal. apply IH; [assumption..|].
    eapply Permutation_cons_inv. exact Hp.
Qed.

End Traversal.

(** ** No nil node is dereferenced *)

Section Safety.

Context {K V : Type}.

Local Abbreviation heap := (heap K V).
Local Abbreviation Node := (Node K V).
Local Abbreviation M := (M K V).

Implicit Types (h : heap) (p n : ptr) (nd : Node) (t : Treap K).
Implicit Types (k key : K) (v val : V) (w weight : Z).

(** A read through a non-nil pointer does not panic. *)
Lemma load_Some_no_panic a h : load (Some a) h <> NilNode.
Proof. unfold load. destruct (h !! a); discriminate. Qed.

(** The guard is true only of a non-nil pointer, and reads without writing. *)
Lemma outranks_cases t p w h :
  outranks t p w h = Ok (false, h) \/
  (exists a, p = Some a /\ outranks t p w h = Ok (true, h)) \/
  (exists a, p = Some a /\ (outranks t p w h = NilFunc \/ outranks t p w h = Wild)).
Proof.
  unfold outranks. destruct p as [a|]; [|left; reflexivity].
  unfold bind, rd, ret, the_handle, call, load.
  destruct (handle t) as [hd|]; cbn [obind]; [|right; right; eauto].
  destruct (h !! a) as [pd|]; cbn [obind]; [|right; right; eauto].
  destruct (CompareWeights hd) as [f|]; cbn [obind]; [|right; right; eauto].
  destruct (f (Weight pd) w <? 0); [right; left; eauto | left; reflexivity].
Qed.

Lemma leftRotation_no_panic t a nd b h :
  h !! a = Some nd -> Left nd = Some b ->
  leftRotation t (Some a) h <> NilNode.
Proof.
  intros Ha Hb. unfold leftRotation, bind, rd, alloc, load.
  rewrite Ha. cbn [obind]. rewrite Hb.
  destruct (h !! b); cbn [obind]; discriminate.
Qed.

Lemma rightRotation_no_panic t a nd b h :
  h !! a = Some nd -> Right nd = Some b ->
  rightRotation t (Some a) h <> NilNode.
Proof.
  intros Ha Hb. unfold rightRotation, bind, rd, alloc, load.
  rewrite Ha. cbn [obind]. rewrite Hb.
  destruct (h !! b); cbn [obind]; discriminate.
Qed.

Lemma rebalance_no_panic t a h : rebalance t (Some a) h <> NilNode.
Proof.
  unfold rebalance. unfold bind at 1, rd at 1, load at 1.
  destruct (h !! a) as [rn|] eqn:Ha; cbn [obind]; [|discriminate].
  unfold bind at 1.
  destruct (outranks_cases t (Left rn) (Weight rn) h)
    as [E1|[(b & Hb & E1)|(b & Hb & [E1|E1])]]; rewrite E1; cbn [obind];
    try discriminate.
  - unfold bind at 1.
    destruct (outranks_cases t (Right rn) (Weight rn) h)
      as [E2|[(b & Hb & E2)|(b & Hb & [E2|E2])]]; rewrite E2; cbn [obind];
      try discriminate.
    eapply rightRotation_no_panic; eassumption.
  - eapply leftRotation_no_panic; eassumption.
Qed.

Lemma bind_no_panic {A B : Type} (m : M A) (f : A -> M B) h :
  m h <> NilNode ->
  (forall a h', m h = Ok (a, h') -> f a h' <> NilNode) ->
  bind m f h <> NilNode.
Proof.
  intros Hm Hf. unfold bind.
  destruct (m h) as [[a h']| | | |]; cbn [obind];
    try discriminate; [|congruence].
  apply Hf. reflexivity.
Qed.

(** The rebuilt node is fresh and non-nil, so [rebalance] is safe on it. *)
Lemma rebuild_no_panic t n (f : Node -> Node) (created : bool) h :
  n <> None ->
  bind (rd (load n)) (fun nd =>
    bind (alloc (f nd)) (fun res =>
      bind (rebalance t res) (fun res => ret (res, created)))) h <> NilNode.
Proof.
  intros Hn. destruct n as [a|]; [|congruence].
  apply bind_no_panic.
  { unfold rd. pose proof (load_Some_no_panic a h).
    destruct (load (Some a) h); cbn [obind]; congruence. }
  intros nd h1 _. rewrite bind_alloc.
  apply bind_no_panic; [apply rebalance_no_panic|].
  intros res h2 _. discriminate.
Qed.

Lemma upsert_no_panic fuel t n k v w create update fn h :
  upsert fuel t n k v w create update fn h <> NilNode.
Proof.
  revert n h. induction fuel as [|fuel IH]; intros n h; cbn [upsert].
  - discriminate.
  - destruct n as [a|]; [|destruct create; discriminate].
    apply bind_no_panic.
    { unfold rd, the_handle. destruct (handle t); discriminate. }
    intros hd h0 _.
    apply bind_no_panic.
    { unfold rd. pose proof (load_Some_no_panic a h0).
      destruct (load (Some a) h0); cbn [obind]; congruence. }
    intros nd h1 _.
    apply bind_no_panic.
    { unfold rd, call. destruct (CompareKeys hd); discriminate. }
    intros c h2 _.
    destruct (c =? -1).
    { apply bind_no_panic; [apply IH|].
      intros [[b|] created] h3 _; [|discriminate].
      apply (rebuild_no_panic t (Some a)
               (fun nd => mkNode (Weight nd) (Key nd) (Item nd) (Some b) (Right nd))).
      discriminate. }
    destruct (c =? 1).
    { apply bind_no_panic; [apply IH|].
      intros [[b|] created] h3 _; [|discriminate].
      apply (rebuild_no_panic t (Some a)
               (fun nd => mkNode (Weight nd) (Key nd) (Item nd) (Left nd) (Some b))).
      discriminate. }
    destruct (negb update); [discriminate|].
    apply bind_no_panic.
    { destruct fn; discriminate. }
    intros [|] h3 _; [discriminate|].
    rewrite bind_alloc.
    apply bind_no_panic.
    { destruct create; [|discriminate].
      unfold set_Item, load. rewrite lookup_fresh. discriminate. }
    intros _ h4 _.
    apply bind_no_panic; [apply rebalance_no_panic|].
    intros res h5 _. discriminate.
Qed.

End Safety.

(** ** More fuel changes no result *)

Section Fuel.

Context {K V : Type}.

Local Abbreviation heap := (heap K V).
Local Abbreviation M := (M K V).

Implicit Types (h : heap) (n : ptr) (t : Treap K) (k : K) (v : V) (w : Z).

Lemma bind_Ok_inv {A B : Type} (m : M A) (f : A -> M B) h (r : B * heap) :
  bind m f h = Ok r -> exists a h1, m h = Ok (a, h1) /\ f a h1 = Ok r.
Proof.
  unfold bind. destruct (m h) as [[a h1]| | | |]; cbn [obind];
    try discriminate.
  intros H. exists a, h1. split; [reflexivity | exact H].
Qed.

Lemma upsert_fuel_mono fuel fuel' t n k v w create update fn h r :
  (fuel <= fuel')%nat ->
  upsert fuel t n k v w create update fn h = Ok r ->
  upsert fuel' t n k v w create update fn h = Ok r.
Proof.
  revert fuel' n h r. induction fuel as [|fuel IH]; intros fuel' n h r Hle.
  - discriminate.
  - destruct fuel' as [|fuel']; [lia|]. cbn [upsert].
    destruct n as [a|]; [|trivial].
    intros H.
    apply bind_Ok_inv in H as (hd & h1 & H1 & H). erewrite bind_Ok by exact H1.
    apply bind_Ok_inv in H as (nd & h2 & H2 & H). erewrite bind_Ok by exact H2.
    apply bind_Ok_inv in H as (c & h3 & H3 & H). erewrite bind_Ok by exact H3.
    destruct (c =? -1).
    { apply bind_Ok_inv in H as (x & h4 & H4 & H).
      erewrite bind_Ok by (apply (IH fuel'); [lia | exact H4]). exact H. }
    destruct (c =? 1).
    { apply bind_Ok_inv in H as (x & h4 & H4 & H).
      erewrite bind_Ok by (apply (IH fuel'); [lia | exact H4]). exact H. }
    exact H.
Qed.

End Fuel.

(** ** The integer comparators meet the contract *)

Lemma Zcmp_spec a b :
  (Zcmp a b = -1 <-> a < b) /\ (Zcmp a b = 0 <-> a = b) /\ (Zcmp a b = 1 <-> b < a).
Proof.
  unfold Zcmp. destruct (Z.compare_spec a b); repeat split; intros; lia.
Qed.

Lemma Zcmp_KeyOrder : KeyOrder Zcmp.
Proof.
  split.
  - intros a b. unfold Zcmp. destruct (a ?= b); auto.
  - intros a b. apply Zcmp_spec.
  - intros a b. pose proof (Zcmp_spec a b) as (H1 & _ & _).
    pose proof (Zcmp_spec b a) as (_ & _ & H2). rewrite H1, H2. tauto.
  - intros a b c. rewrite !(proj1 (Zcmp_spec _ _)). lia.
Qed.

Lemma Zcmp_WeightOrder : WeightOrder Zcmp.
Proof.
  assert (Hge : forall a b, Zcmp a b >= 0 <-> b <= a).
  { intros a b. unfold Zcmp. destruct (Z.compare_spec a b); lia. }
  split.
  - intros a b H. apply Hge. unfold Zcmp in H.
    destruct (Z.compare_spec a b); lia.
  - intros a b c. rewrite !Hge. lia.
Qed.

(** ** Every tree built by Insert *)

Section Reachable.

Context {K V : Type}.

Local Abbreviation tree := (tree K V).
Local Abbreviation heap := (heap K V).

Variable ck : K -> K -> Z.
Variable cw : Z -> Z -> Z.

(** A property of trees that holds of the empty tree and that [Insert]
    preserves holds of every root built by [Insert]. *)
Lemma reachable_ind_tree (P : tree -> Prop) (t : Treap K) (h : heap) (n : ptr) :
  uses ck cw t ->
  P E ->
  (forall tr k v w, P tr -> P (fst (InsertT ck cw tr k v w))) ->
  reachable t h n ->
  exists tr, repr h n tr /\ P tr.
Proof.
  intros Ht HE HI.
  induction 1 as [h|h h' n n' fuel k v w created _ IH HIns
                   |h h' n m m' fuel k v w created _ IH _ _ HIns].
  - exists E. split; [constructor | exact HE].
  - destruct IH as (tr & Hn & HP).
    set (fuel' := Nat.max fuel (S (height tr))).
    apply (upsert_fuel_mono fuel fuel') in HIns; [|lia].
    destruct (Insert_repr ck cw fuel' t n k v w h tr Ht Hn ltac:(lia))
      as (n1 & h1 & H1 & _ & Hr).
    unfold Insert in H1. rewrite HIns in H1. injection H1 as <- _ <-.
    eexists. split; [exact Hr | apply HI; exact HP].
  - destruct IH as (tr & Hn & HP).
    exists tr. split; [|exact HP].
    eapply repr_prefix; [|exact Hn]. eapply grows_Insert; eassumption.
Qed.

(** C2: every tree reachable from the empty tree by calls of Insert, under a
    key comparator that is a strict total order answering -1, 0 or 1, is a
    search tree: below each node the keys on the left compare less and the
    keys on the right compare greater than the node's key, and (the same
    thing) its in-order traversal lists the keys in strictly increasing
    order. *)
Theorem reachable_search_tree (t : Treap K) (h : heap) (n : ptr) :
  KeyOrder ck -> uses ck cw t -> reachable t h n ->
  exists tr, repr h n tr /\ bst ck tr /\ StronglySorted (klt ck) (keys tr).
Proof.
  intros Hck Ht Hreach.
  destruct (reachable_ind_tree (bst ck) t h n Ht I) as (tr & Hn & Hb).
  - intros tr k v w. apply bst_InsertT. exact Hck.
  - exact Hreach.
  - exists tr. split; [exact Hn|]. split; [exact Hb|].
    apply (bst_sorted ck Hck). exact Hb.
Qed.

(** C3: every tree reachable from the empty tree by calls of Insert is
    heap-ordered: for every node n with a child c,
    compareWeights(c.Weight, n.Weight) >= 0.  The one rotation per level of
    the unwinding restores the invariant ([heap_ordered_InsertT]). *)
Theorem reachable_heap_ordered (t : Treap K) (h : heap) (n : ptr) :
  WeightOrder cw -> uses ck cw t -> reachable t h n ->
  exists tr, repr h n tr /\ heap_ordered cw tr.
Proof.
  intros Hcw Ht Hreach.
  apply (reachable_ind_tree (heap_ordered cw) t h n Ht I); [|exact Hreach].
  intros tr k v w Hh. apply (heap_ordered_InsertT ck cw Hcw tr k v w Hh).
Qed.

End Reachable.

(** ** Insert and the lookups *)

Section InsertGet.

Context {K V : Type}.

Local Abbreviation tree := (tree K V).
Local Abbreviation heap := (heap K V).

Implicit Types (h : heap) (n root newRoot : ptr) (tr : tree) (t : Treap K).
Implicit Types (k key : K) (v x : V) (w : Z).

Variable ck : K -> K -> Z.
Variable cw : Z -> Z -> Z.

Lemma GetT_snd tr key : snd (GetT ck tr key) = snd (GetNodeT ck tr key).
Proof.
  unfold GetT. destruct (GetNodeT ck tr key) as [tr' [|]] eqn:Hg.
  - apply GetNodeT_found in Hg. destruct tr'; [congruence | reflexivity].
  - destruct tr'; reflexivity.
Qed.

(** An insertion that returns nil has allocated nothing. *)
Lemma Insert_noop_repr fuel t n k v w h tr :
  uses ck cw t -> repr h n tr -> (height tr < fuel)%nat ->
  fst (InsertT ck cw tr k v w) = E ->
  Insert fuel t n k v w h = Ok ((None, snd (InsertT ck cw tr k v w)), h).
Proof.
  intros Ht. unfold Insert. revert fuel n.
  induction tr as [|nw nk nv l IHl r IHr]; intros fuel n Hn Hf.
  - discriminate.
  - apply repr_T_inv in Hn as (a & nd & -> & Ha & -> & -> & -> & Hl & Hr).
    destruct fuel as [|fuel]; [simpl in Hf; lia|].
    simpl in Hf. cbn [upsert InsertT].
    rewrite (bind_rd _ _ _ _ (the_handle_uses ck cw _ Ht)).
    erewrite bind_rd by (unfold load; rewrite Ha; reflexivity).
    erewrite bind_rd by reflexivity. cbn [CompareKeys].
    destruct (ck k (Key nd) =? -1).
    { specialize (IHl fuel (Left nd) Hl ltac:(lia)).
      destruct (InsertT ck cw l k v w) as [[|rw rk rv rl rr] created];
        cbn [fst snd] in *.
      - intros _. erewrite bind_Ok by (apply IHl; reflexivity). reflexivity.
      - intros H. exfalso. revert H. apply rebalanceT_not_E. discriminate. }
    destruct (ck k (Key nd) =? 1); [|reflexivity].
    specialize (IHr fuel (Right nd) Hr ltac:(lia)).
    destruct (InsertT ck cw r k v w) as [[|rw rk rv rl rr] created];
      cbn [fst snd] in *.
    + intros _. erewrite bind_Ok by (apply IHr; reflexivity). reflexivity.
    + intros H. exfalso. revert H. apply rebalanceT_not_E. discriminate.
Qed.

(** C1, as amended: for every root of a search tree in which key k is absent,
    and every value v and weight w, under a key comparator that is a strict
    total order answering -1, 0 or 1, Insert(root, k, v, w) creates the key and
    looking k up in the root it returns yields (v, true). *)
Theorem Get_after_Insert_absent t h root tr k v w (fuel : nat) :
  KeyOrder ck -> uses ck cw t ->
  repr h root tr -> bst ck tr -> (height tr < fuel)%nat ->
  Get fuel t root k h = Ok (None, false) ->
  exists newRoot h',
    Insert fuel t root k v w h = Ok ((newRoot, true), h') /\
    exists fuel0, forall fuel', (fuel0 <= fuel')%nat ->
      Get fuel' t newRoot k h' = Ok (Some v, true).
Proof.
  intros Hck Ht Hr Hb Hf Habsent.
  rewrite (Get_repr ck cw fuel t root k h tr Ht Hr Hf) in Habsent.
  assert (Hmiss : snd (GetNodeT ck tr k) = false).
  { rewrite <- GetT_snd. injection Habsent as ->. reflexivity. }
  destruct (InsertT_absent ck cw tr k v w (ck_range ck Hck) Hmiss) as [Hc Hne].
  destruct (Insert_repr ck cw fuel t root k v w h tr Ht Hr Hf)
    as (newRoot & h' & HI & _ & Hr').
  rewrite Hc in HI. exists newRoot, h'. split; [exact HI|].
  exists (S (height (fst (InsertT ck cw tr k v w)))). intros fuel' Hf'.
  rewrite (Get_repr ck cw fuel' t newRoot k h' _ Ht Hr' ltac:(lia)).
  f_equal. apply (GetT_InsertT ck cw Hck tr k v w); [exact Hb|].
  destruct (InsertT ck cw tr k v w) as [tr' c]. cbn [fst snd] in *.
  rewrite Hc. reflexivity.
Qed.

(** C4, as amended: for every finite tree and every key that Get finds in
    it, Insert of that key raises no error, allocates nothing, and returns
    created = false together with the nil root (the no-op sentinel); the
    input tree stays as it was in the unchanged store. *)
Theorem Insert_present_returns_nil t h root tr k v w x (fuel : nat) :
  uses ck cw t -> repr h root tr -> (height tr < fuel)%nat ->
  Get fuel t root k h = Ok (Some x, true) ->
  Insert fuel t root k v w h = Ok ((None, false), h).
Proof.
  intros Ht Hr Hf Hpresent.
  rewrite (Get_repr ck cw fuel t root k h tr Ht Hr Hf) in Hpresent.
  assert (Hfound : snd (GetNodeT ck tr k) = true).
  { rewrite <- GetT_snd. injection Hpresent as ->. reflexivity. }
  pose proof (InsertT_present ck cw tr k v w Hfound) as HI.
  rewrite (Insert_noop_repr fuel t root k v w h tr Ht Hr Hf); rewrite HI;
    reflexivity.
Qed.

(** When the comparator answers -1, 0 or 1 only, the two traversals agree,
    and a key that GetNode misses is created. *)
Lemma Insert_absent_created t h n tr k v w (fuel : nat) :
  (forall a b, ck a b = -1 \/ ck a b = 0 \/ ck a b = 1) ->
  uses ck cw t -> repr h n tr -> (height tr < fuel)%nat ->
  GetNode fuel t n k h = Ok (None, false) ->
  exists a h', Insert fuel t n k v w h = Ok ((Some a, true), h').
Proof.
  intros Hrange Ht Hr Hf Hmiss.
  destruct (GetNode_repr ck cw fuel t n k h tr Ht Hr Hf) as (n' & Hg & _).
  rewrite Hg in Hmiss. injection Hmiss as _ Hmiss.
  destruct (InsertT_absent ck cw tr k v w Hrange Hmiss) as [Hc Hne].
  destruct (Insert_repr ck cw fuel t n k v w h tr Ht Hr Hf)
    as (newRoot & h' & HI & _ & Hr').
  rewrite Hc in HI.
  destruct newRoot as [a|].
  - exists a, h'. exact HI.
  - apply repr_nil_inv in Hr'. congruence.
Qed.

End InsertGet.

(** ** Persistence, rotations, safety *)

Section Persistence.

Context {K V : Type}.

Local Abbreviation tree := (tree K V).
Local Abbreviation heap := (heap K V).
Local Abbreviation Node := (Node K V).

Implicit Types (h : heap) (n root newRoot p : ptr) (tr : tree) (t : Treap K).
Implicit Types (k key : K) (v : V) (w : Z) (N L R : Node).

(** C7: Insert mutates no node that was there before the call: every cell of
    the store is unchanged after Insert(root, k, v, w) returns newRoot, the
    input root still stands for the same tree, and Get(root, key) returns for
    every key what it returned before the call. *)
Theorem Insert_preserves_old_tree t h root tr k v w (fuel : nat)
    newRoot (created : bool) h' :
  repr h root tr ->
  Insert fuel t root k v w h = Ok ((newRoot, created), h') ->
  (forall a N, h !! a = Some N -> h' !! a = Some N) /\
  repr h' root tr /\
  forall (fuel' : nat) key, Get fuel' t root key h' = Get fuel' t root key h.
Proof.
  intros Hr HI. apply grows_Insert in HI. split; [|split].
  - intros a N Ha. eapply prefix_lookup_Some; eassumption.
  - eapply repr_prefix; eassumption.
  - intros fuel' key. eapply Get_prefix; eassumption.
Qed.

Lemma elements_rotate (l1 l2 l3 : list (K * V)) (x y : K * V) :
  l1 ++ x :: (l2 ++ y :: l3) = (l1 ++ x :: l2) ++ y :: l3.
Proof. rewrite <- app_assoc. reflexivity. Qed.

(** C8: on a node N whose left child L is not nil, the left rotation
    allocates exactly two cells and writes no other: the new root carries L's
    weight, key and item, keeps L's left subtree, and has for right child a
    copy of N whose left child is L.Right and whose right child is N.Right;
    the right rotation is the mirror image.  The subtrees are reused by
    address, and the in-order traversal of the subtree is unchanged. *)
Theorem rotation_allocates_two_nodes t h (a : nat) N :
  h !! a = Some N ->
  (forall b L, Left N = Some b -> h !! b = Some L ->
     leftRotation t (Some a) h =
     Ok (Some (S (length h)),
         h ++ [mkNode (Weight N) (Key N) (Item N) (Right L) (Right N);
               mkNode (Weight L) (Key L) (Item L) (Left L) (Some (length h))])) /\
  (forall b R, Right N = Some b -> h !! b = Some R ->
     rightRotation t (Some a) h =
     Ok (Some (S (length h)),
         h ++ [mkNode (Weight N) (Key N) (Item N) (Left N) (Left R);
               mkNode (Weight R) (Key R) (Item R) (Some (length h)) (Right R)])) /\
  (forall tr p h',
     repr h (Some a) tr ->
     leftRotation t (Some a) h = Ok (p, h') \/
     rightRotation t (Some a) h = Ok (p, h') ->
     exists tr', repr h' p tr' /\ elements tr' = elements tr).
Proof.
  intros Ha. split; [|split].
  - intros b L Hb HL. unfold leftRotation, bind, rd, alloc, load.
    rewrite Ha. cbn [obind]. rewrite Hb, HL. cbn [obind].
    rewrite length_app, <- app_assoc. cbn [length app].
    replace (length h + 1)%nat with (S (length h)) by lia. reflexivity.
  - intros b R Hb HR. unfold rightRotation, bind, rd, alloc, load.
    rewrite Ha. cbn [obind]. rewrite Hb, HR. cbn [obind].
    rewrite length_app, <- app_assoc. cbn [length app].
    replace (length h + 1)%nat with (S (length h)) by lia. reflexivity.
  - intros tr p h' Hr Hrot.
    pose proof Hr as Hinv.
    inversion Hinv as [|a' N' l r Ha' Hl Hrr]; subst.
    rewrite Ha in Ha'. injection Ha' as <-.
    destruct Hrot as [Hrot|Hrot].
    + destruct l as [|lw lk lv ll lr].
      { apply repr_E_inv in Hl. exfalso. revert Hrot.
        unfold leftRotation, bind, rd, load. rewrite Ha. cbn [obind].
        rewrite Hl. discriminate. }
      destruct (leftRotation_repr t _ _ _ _ _ _ _ _ _ _ _ Hr)
        as (p1 & h1 & E1 & _ & R1).
      rewrite Hrot in E1. injection E1 as <- <-.
      eexists. split; [exact R1|]. simpl. apply elements_rotate.
    + destruct r as [|rw rk rv rl rr].
      { apply repr_E_inv in Hrr. exfalso. revert Hrot.
        unfold rightRotation, bind, rd, load. rewrite Ha. cbn [obind].
        rewrite Hrr. discriminate. }
      destruct (rightRotation_repr t _ _ _ _ _ _ _ _ _ _ _ Hr)
        as (p1 & h1 & E1 & _ & R1).
      rewrite Hrot in E1. injection E1 as <- <-.
      eexists. split; [exact R1|]. simpl. symmetry. apply elements_rotate.
Qed.

(** C9: the rotations read through the promoted child without a check (on a
    node whose left, respectively right, child is nil they panic), and
    upsert calls each of them only behind its guard: whatever the treap, the
    store, the root, the flags and the predicate, no run of upsert
    dereferences a nil node. *)
Theorem upsert_no_nil_dereference t (fuel : nat) n k v w
    (create update : bool) (fn : option (ptr -> heap -> bool)) h :
  (forall N, load n h = Ok N -> Left N = None -> leftRotation t n h = NilNode) /\
  (forall N, load n h = Ok N -> Right N = None -> rightRotation t n h = NilNode) /\
  upsert fuel t n k v w create update fn h <> NilNode.
Proof.
  split; [|split].
  - intros N HN HL. unfold leftRotation, bind, rd. rewrite HN. cbn [obind].
    rewrite HL. reflexivity.
  - intros N HN HR. unfold rightRotation, bind, rd. rewrite HN. cbn [obind].
    rewrite HR. reflexivity.
  - apply upsert_no_panic.
Qed.

End Persistence.

(** ** Construction, and the scenarios *)

(** C6, as amended: NewTreap fails, with the error "comparator is nil",
    exactly when the handle itself is nil; any other handle is accepted as it
    is and stored in the new treap, whose root is nil, whether or not its two
    comparator fields are set. *)
Theorem NewTreap_checks_handle_only (K : Type) (h : option (Handle K)) :
  (h = None -> NewTreap h = (None, Some "comparator is nil"%string)) /\
  (forall hd, h = Some hd ->
     NewTreap h = (Some {| handle := Some hd; root := None |}, None)).
Proof.
  split.
  - intros ->. reflexivity.
  - intros hd ->. reflexivity.
Qed.

(** C5: Min and Max follow the left, respectively right, children to the end
    and return the item of the last node, or nothing for an empty tree.  On
    the empty tree both return nothing; on the tree built by Insert of the
    keys 5, 3, 8, 1 in any order, whatever the weights and the weight
    comparator, Min returns the item stored for key 1 and Max the item stored
    for key 8. *)
Theorem Min_Max_scenario (V : Type) (cw : Z -> Z -> Z) (t : Treap Z)
    (fuel : nat) (h0 : heap Z V) (v5 v3 v8 v1 : V) (w5 w3 w8 w1 : Z)
    (l : list (Z * V * Z)) :
  uses Zcmp cw t -> (4 <= fuel)%nat ->
  Permutation l [(5, v5, w5); (3, v3, w3); (8, v8, w8); (1, v1, w1)] ->
  (forall h : heap Z V,
     Min fuel (with_root t None) h = Ok None /\
     Max fuel (with_root t None) h = Ok None) /\
  (forall (h : heap Z V) tr, repr h (root t) tr -> (height tr <= fuel)%nat ->
     Min fuel t h = Ok (item_of (Min_loopT tr)) /\
     Max fuel t h = Ok (item_of (Max_loopT tr))) /\
  exists r h,
    InsertAll fuel t None l h0 = Ok (r, h) /\
    Min fuel (with_root t r) h = Ok (Some v1) /\
    Max fuel (with_root t r) h = Ok (Some v8).
Proof.
  intros Ht Hf Hperm. split; [|split].
  - intros h. split; reflexivity.
  - intros h tr Hr Hh. rewrite head_elements, last_elements.
    split; [apply Min_repr | apply Max_repr]; assumption.
  - set (sorted := [(1, v1); (3, v3); (5, v5); (8, v8)]).
    assert (Hkv : Permutation (map fst l) sorted).
    { rewrite Hperm. simpl.
      apply (Permutation_cons_app [(1, v1); (3, v3)] [(8, v8)]).
      apply (Permutation_cons_app [(1, v1)] [(8, v8)]).
      apply (Permutation_cons_app [(1, v1)] []). reflexivity. }
    destruct (ins_all_fresh Zcmp Zcmp_KeyOrder l []) as (acc & Hall & Hacc).
    { rewrite app_nil_r, Hkv. simpl.
      repeat (apply NoDup_cons; split;
              [rewrite ?not_elem_of_cons; repeat split;
               first [lia | apply not_elem_of_nil]|]).
      apply NoDup_nil. exact I. }
    rewrite app_nil_r, Hkv in Hacc.
    destruct (InsertAll_elements Zcmp cw Zcmp_KeyOrder fuel t None h0 E l [] acc
                Ht (repr_nil h0) I eq_refl) as (r & h & tr & HI & Hr & Hb & He);
      [|exact Hall|].
    { apply Permutation_length in Hperm. simpl in *. lia. }
    assert (Hs : acc = sorted).
    { apply (sorted_Permutation_eq Zcmp Zcmp_KeyOrder); [| |exact Hacc].
      - rewrite <- He. apply (bst_sorted Zcmp Zcmp_KeyOrder). exact Hb.
      - simpl. repeat constructor. }
    rewrite Hs in He.
    assert (Hh : (height tr <= fuel)%nat).
    { pose proof (height_elements tr) as Hh. rewrite He in Hh.
      simpl in Hh. lia. }
    exists r, h. split; [exact HI|]. split.
    + rewrite (Min_repr fuel (with_root t r) h tr Hr Hh), He. reflexivity.
    + rewrite (Max_repr fuel (with_root t r) h tr Hr Hh), He. reflexivity.
Qed.

(** C10: upsert switches on the exact answers -1 and 1 and takes any other
    answer for equality, while GetNode follows the sign.  With the comparator
    by difference and the one-node tree of key 5, key 3 is absent: GetNode
    goes left on the answer -2 and finds nothing, but Insert stops at the root
    and returns the nil root with created = false.  With a comparator that
    answers -1, 0 or 1 only the two agree: a key that GetNode misses is
    created. *)
Theorem upsert_GetNode_disagree :
  (let t := treap_of Zsub Zcmp in
   Insert 2 t None 5 50 10 [] = Ok ((Some 0%nat, true), ex_heap1) /\
   Zsub 3 5 = -2 /\
   GetNode 2 t (Some 0%nat) 3 ex_heap1 = Ok (None, false) /\
   Insert 2 t (Some 0%nat) 3 30 5 ex_heap1 = Ok ((None, false), ex_heap1)) /\
  (forall (K V : Type) (ck : K -> K -> Z) (cw : Z -> Z -> Z) (t : Treap K)
          (h : heap K V) (n : ptr) (tr : tree K V) (k : K) (v : V) (w : Z)
          (fuel : nat),
     (forall a b, ck a b = -1 \/ ck a b = 0 \/ ck a b = 1) ->
     uses ck cw t -> repr h n tr -> (height tr < fuel)%nat ->
     GetNode fuel t n k h = Ok (None, false) ->
     exists a h', Insert fuel t n k v w h = Ok ((Some a, true), h')).
Proof.
  split.
  - repeat split; reflexivity.
  - intros K V ck cw t h n tr k v w fuel. apply Insert_absent_created.
Qed.

(** ** The theorems at work on the example stores *)

Lemma ex_heap1_repr : repr ex_heap1 (Some 0%nat) (T 10 5 50 E E).
Proof.
  apply (repr_node ex_heap1 0 (mkNode 10 5 50 None None) E E eq_refl);
    constructor.
Defined.

Lemma ex_heap1_reachable : reachable ex_treap ex_heap1 (Some 0%nat).
Proof.
  apply (reachable_Insert ex_treap [] ex_heap1 None (Some 0%nat) 1 5 50 10 true).
  - apply reachable_empty.
  - reflexivity.
Defined.

Lemma ex_heap2_reachable : reachable ex_treap ex_heap2 (Some 4%nat).
Proof.
  apply (reachable_Insert ex_treap ex_heap1 ex_heap2 (Some 0%nat) (Some 4%nat)
           2 3 30 5 true).
  - exact ex_heap1_reachable.
  - reflexivity.
Defined.

(** C1, counterexample: key 5 is in the tree of [ex_heap1]; Insert of key 5
    with the new value 51 returns the nil root, in which the lookup of key 5
    finds nothing. *)
Lemma Get_after_Insert_present_fails :
  Insert 2 ex_treap None 5 50 10 [] = Ok ((Some 0%nat, true), ex_heap1) /\
  Insert 2 ex_treap (Some 0%nat) 5 51 20 ex_heap1 = Ok ((None, false), ex_heap1) /\
  Get 2 ex_treap None 5 ex_heap1 = Ok (None, false) /\
  Get 2 ex_treap None 5 ex_heap1 <> Ok (Some 51, true).
Proof. repeat split; try reflexivity. discriminate. Qed.

(** Why C1 asks for a search tree: below the root of [ex_heap_unordered],
    key 4 is absent and Insert creates it on the left of key 5, then rotates
    the misplaced key 3 to the root; the lookup of key 4 turns right there and
    misses it. *)
Example Get_after_Insert_unordered_root :
  exists newRoot h',
    Get 3 ex_treap (Some 1%nat) 4 ex_heap_unordered = Ok (None, false) /\
    Insert 3 ex_treap (Some 1%nat) 4 40 9 ex_heap_unordered
      = Ok ((newRoot, true), h') /\
    Get 5 ex_treap newRoot 4 h' = Ok (None, false).
Proof. eexists _, _. repeat split; reflexivity. Qed.

Lemma Get_after_Insert_absent_witness :
  exists newRoot h',
    Insert 2 ex_treap (Some 0%nat) 3 30 5 ex_heap1 = Ok ((newRoot, true), h') /\
    exists fuel0, forall fuel', (fuel0 <= fuel')%nat ->
      Get fuel' ex_treap newRoot 3 h' = Ok (Some 30, true).
Proof.
  apply (Get_after_Insert_absent Zcmp Zcmp ex_treap ex_heap1 (Some 0%nat)
           (T 10 5 50 E E) 3 30 5 2 Zcmp_KeyOrder eq_refl ex_heap1_repr).
  - simpl. auto.
  - simpl. lia.
  - reflexivity.
Defined.

Lemma reachable_search_tree_witness :
  exists tr, repr ex_heap2 (Some 4%nat) tr /\ bst Zcmp tr /\
             StronglySorted (klt Zcmp) (keys tr).
Proof.
  exact (reachable_search_tree Zcmp Zcmp ex_treap ex_heap2 (Some 4%nat)
           Zcmp_KeyOrder eq_refl ex_heap2_reachable).
Defined.

Lemma reachable_heap_ordered_witness :
  exists tr, repr ex_heap2 (Some 4%nat) tr /\ heap_ordered Zcmp tr.
Proof.
  exact (reachable_heap_ordered Zcmp Zcmp ex_treap ex_heap2 (Some 4%nat)
           Zcmp_WeightOrder eq_refl ex_heap2_reachable).
Defined.

(** C4, counterexample: Insert of the key 5 that the tree of [ex_heap1]
    holds returns the nil root, which stands for the empty tree, and not a
    tree with the contents of the input. *)
Lemma Insert_present_not_identical :
  exists newRoot created h' trIn trOut,
    Insert 2 ex_treap (Some 0%nat) 5 51 20 ex_heap1 = Ok ((newRoot, created), h') /\
    repr ex_heap1 (Some 0%nat) trIn /\
    repr h' newRoot trOut /\
    elements trIn = [(5, 50)] /\
    elements trOut = [].
Proof.
  exists None, false, ex_heap1, (T 10 5 50 E E), E.
  repeat split; try reflexivity; [exact ex_heap1_repr | constructor].
Qed.

Lemma Insert_present_returns_nil_witness :
  Insert 2 ex_treap (Some 0%nat) 5 51 20 ex_heap1 = Ok ((None, false), ex_heap1).
Proof.
  apply (Insert_present_returns_nil Zcmp Zcmp ex_treap ex_heap1 (Some 0%nat)
           (T 10 5 50 E E) 5 51 20 50 2 eq_refl ex_heap1_repr).
  - simpl. lia.
  - reflexivity.
Defined.

Lemma Min_Max_scenario_witness :
  exists r h,
    InsertAll 4 ex_treap None [(5, 50, 10); (3, 30, 5); (8, 80, 7); (1, 10, 9)] []
      = Ok (r, h) /\
    Min 4 (with_root ex_treap r) h = Ok (Some 10) /\
    Max 4 (with_root ex_treap r) h = Ok (Some 80).
Proof.
  apply (Min_Max_scenario Z Zcmp ex_treap 4 [] 50 30 80 10 10 5 7 9
           [(5, 50, 10); (3, 30, 5); (8, 80, 7); (1, 10, 9)] eq_refl).
  - lia.
  - reflexivity.
Defined.

(** C6, counterexample: a handle with neither comparator set is accepted,
    and the treap returned holds it. *)
Lemma NewTreap_accepts_nil_comparators :
  NewTreap (Some (mkHandle (K:=Z) None None)) =
  (Some {| handle := Some (mkHandle None None); root := None |}, None).
Proof. reflexivity. Qed.

Lemma Insert_preserves_old_tree_witness :
  (forall a N, ex_heap1 !! a = Some N -> ex_heap2 !! a = Some N) /\
  repr ex_heap2 (Some 0%nat) (T 10 5 50 E E) /\
  forall (fuel' : nat) key,
    Get fuel' ex_treap (Some 0%nat) key ex_heap2 =
    Get fuel' ex_treap (Some 0%nat) key ex_heap1.
Proof.
  apply (Insert_preserves_old_tree ex_treap ex_heap1 (Some 0%nat) (T 10 5 50 E E)
           3 30 5 2 (Some 4%nat) true ex_heap2 ex_heap1_repr).
  reflexivity.
Defined.

Lemma rotation_allocates_two_nodes_witness :
  leftRotation ex_treap (Some 2%nat) ex_heap2 =
  Ok (Some 6%nat,
      ex_heap2 ++ [mkNode 10 5 50 None None; mkNode 5 3 30 None (Some 5%nat)]).
Proof.
  exact (proj1 (rotation_allocates_two_nodes ex_treap ex_heap2 2%nat
                  (mkNode 10 5 50 (Some 1%nat) None) eq_refl)
           1%nat (mkNode 5 3 30 None None) eq_refl eq_refl).
Defined.

Lemma upsert_no_nil_dereference_witness :
  leftRotation ex_treap (Some 0%nat) ex_heap1 = NilNode /\
  upsert 3 ex_treap (Some 4%nat) 8 80 1 true true None ex_heap2 <> NilNode.
Proof.
  split.
  - exact (proj1 (upsert_no_nil_dereference ex_treap 3 (Some 0%nat) 8 80 1
                    true true None ex_heap1)
             (mkNode 10 5 50 None None) eq_refl eq_refl).
  - exact (proj2 (proj2 (upsert_no_nil_dereference ex_treap 3 (Some 4%nat) 8 80 1
                           true true None ex_heap2))).
Defined.

Lemma upsert_GetNode_disagree_witness :
  exists a h',
    Insert 2 ex_treap (Some 0%nat) 3 30 5 ex_heap1 = Ok ((Some a, true), h').
Proof.
  apply (proj2 upsert_GetNode_disagree Z Z Zcmp Zcmp ex_treap ex_heap1
           (Some 0%nat) (T 10 5 50 E E) 3 30 5 2%nat).
  - exact (ck_range Zcmp Zcmp_KeyOrder).
  - reflexivity.
  - exact ex_heap1_repr.
  - simpl. lia.
  - reflexivity.
Defined.

(** ** upsert with every flag *)

Section Upsert.

Context {K V : Type}.

Local Abbreviation tree := (tree K V).
Local Abbreviation heap := (heap K V).
Local Abbreviation Node := (Node K V).
Local Abbreviation M := (M K V).

Implicit Types (h : heap) (p n : ptr) (nd : Node) (tr : tree) (t : Treap K).
Implicit Types (k key : K) (v val : V) (w weight : Z).
Implicit Types (create update reject : bool).

Variable ck : K -> K -> Z.
Variable cw : Z -> Z -> Z.

Lemma bind_alloc_set_Item {B : Type} nd (c : bool) v (f : ptr -> M B) h :
  bind (alloc nd) (fun res =>
    bind (if c then set_Item res v else ret tt) (fun _ => f res)) h =
  f (Some (length h))
    (h ++ [mkNode (Weight nd) (Key nd) (if c then v else Item nd)
             (Left nd) (Right nd)]).
Proof.
  rewrite bind_alloc. destruct c.
  - unfold bind, set_Item, load. rewrite lookup_fresh. cbn [obind].
    rewrite insert_app_r_alt by lia. rewrite Nat.sub_diag. reflexivity.
  - destruct nd. reflexivity.
Qed.

Lemma upsertT_E tr k v w create update reject created :
  upsertT ck cw tr k v w create update reject = (E, created) -> created = false.
Proof.
  induction tr as [|nw nk nv l IHl r IHr]; cbn [upsertT].
  - destruct create; [discriminate | intros [= <-]; reflexivity].
  - destruct (ck k nk =? -1).
    { destruct (upsertT ck cw l k v w create update reject)
        as [[|rw rk rv rl rr] c].
      + exact IHl.
      + intros [= H _]. exfalso. revert H. apply rebalanceT_not_E. discriminate. }
    destruct (ck k nk =? 1).
    { destruct (upsertT ck cw r k v w create update reject)
        as [[|rw rk rv rl rr] c].
      + exact IHr.
      + intros [= H _]. exfalso. revert H. apply rebalanceT_not_E. discriminate. }
    destruct (negb update); [intros [= <-]; reflexivity|].
    destruct reject; [discriminate|].
    intros [= H _]. exfalso. revert H. apply rebalanceT_not_E. discriminate.
Qed.

Lemma fn_answers_left fn h (a : nat) nd k reject :
  h !! a = Some nd -> ck k (Key nd) = -1 ->
  fn_answers ck fn h (Some a) k reject -> fn_answers ck fn h (Left nd) k reject.
Proof.
  intros Ha Hc. unfold fn_answers. destruct fn as [f|]; [|trivial].
  intros H b Hb. apply H. eapply stops_left; eassumption.
Qed.

Lemma fn_answers_right fn h (a : nat) nd k reject :
  h !! a = Some nd -> ck k (Key nd) = 1 ->
  fn_answers ck fn h (Some a) k reject -> fn_answers ck fn h (Right nd) k reject.
Proof.
  intros Ha Hc. unfold fn_answers. destruct fn as [f|]; [|trivial].
  intros H b Hb. apply H. eapply stops_right; eassumption.
Qed.

(** The method computes [upsertT]; a run that returns nil has allocated
    nothing. *)
Lemma upsert_repr fuel t n k v w create update fn reject h tr :
  uses ck cw t -> fn_answers ck fn h n k reject ->
  repr h n tr -> (height tr < fuel)%nat ->
  exists n' h',
    upsert fuel t n k v w create update fn h =
      Ok ((n', snd (upsertT ck cw tr k v w create update reject)), h') /\
    h `prefix_of` h' /\
    repr h' n' (fst (upsertT ck cw tr k v w create update reject)) /\
    (n' = None -> h' = h).
Proof.
  intros Ht. revert fuel n.
  induction tr as [|nw nk nv l IHl r IHr]; intros fuel n Hfn Hn Hf.
  - apply repr_E_inv in Hn as ->.
    destruct fuel as [|fuel]; [simpl in Hf; lia|].
    cbn [upsert upsertT]. destruct create; cbn [fst snd].
    + rewrite bind_alloc. unfold ret.
      eexists _, _. split; [reflexivity|]. split; [apply prefix_snoc|].
      split; [|discriminate].
      eapply repr_root; [apply lookup_fresh| | |reflexivity..];
        cbn [Left Right]; constructor.
    + exists None, h. repeat split; [reflexivity | constructor].
  - pose proof Hn as Hinv.
    apply repr_T_inv in Hinv as (a & nd & -> & Ha & -> & -> & -> & Hl & Hr).
    destruct fuel as [|fuel]; [simpl in Hf; lia|].
    simpl in Hf. cbn [upsert upsertT].
    rewrite (bind_rd _ _ _ _ (the_handle_uses ck cw _ Ht)).
    erewrite bind_rd by (unfold load; rewrite Ha; reflexivity).
    erewrite bind_rd by reflexivity. cbn [CompareKeys].
    destruct (ck k (Key nd) =? -1) eqn:E1.
    { apply Z.eqb_eq in E1.
      destruct (IHl fuel (Left nd)
                  (fn_answers_left fn h a nd k reject Ha E1 Hfn) Hl ltac:(lia))
        as (n1 & h1 & I1 & P1 & R1 & N1).
      erewrite bind_Ok by exact I1.
      destruct (upsertT ck cw l k v w create update reject) as [res created].
      cbn [fst snd] in *.
      destruct res as [|rw rk rv rl rr].
      - apply repr_E_inv in R1 as ->. unfold ret. rewrite (N1 eq_refl).
        exists None, h. repeat split; [reflexivity | constructor].
      - pose proof R1 as R1'.
        apply repr_T_inv in R1' as (b & bd & -> & _).
        erewrite bind_rd
          by (unfold load; rewrite (prefix_lookup_Some _ _ _ _ Ha P1); reflexivity).
        rewrite bind_alloc.
        set (c := mkNode _ _ _ _ _).
        destruct (rebalance_repr ck cw t (Some (length h1)) (h1 ++ [c])
                    (Weight nd) (Key nd) (Item nd) (T rw rk rv rl rr) r Ht)
          as (p & h2 & E2 & P2 & R2).
        { eapply repr_root; [apply lookup_fresh| | |reflexivity..];
            cbn [Left Right c].
          - eapply repr_prefix; [apply prefix_snoc | exact R1].
          - eapply repr_prefix; [|exact Hr].
            etransitivity; [exact P1 | apply prefix_snoc]. }
        erewrite bind_Ok by exact E2. unfold ret.
        exists p, h2. split; [reflexivity|]. split; [|split; [exact R2|]].
        + etransitivity; [exact P1|].
          etransitivity; [apply prefix_snoc | exact P2].
        + intros ->. apply repr_nil_inv in R2. exfalso. revert R2.
          apply rebalanceT_not_E. discriminate. }
    destruct (ck k (Key nd) =? 1) eqn:E2.
    { apply Z.eqb_eq in E2.
      destruct (IHr fuel (Right nd)
                  (fn_answers_right fn h a nd k reject Ha E2 Hfn) Hr ltac:(lia))
        as (n1 & h1 & I1 & P1 & R1 & N1).
      erewrite bind_Ok by exact I1.
      destruct (upsertT ck cw r k v w create update reject) as [res created].
      cbn [fst snd] in *.
      destruct res as [|rw rk rv rl rr].
      - apply repr_E_inv in R1 as ->. unfold ret. rewrite (N1 eq_refl).
        exists None, h. repeat split; [reflexivity | constructor].
      - pose proof R1 as R1'.
        apply repr_T_inv in R1' as (b & bd & -> & _).
        erewrite bind_rd
          by (unfold load; rewrite (prefix_lookup_Some _ _ _ _ Ha P1); reflexivity).
        rewrite bind_alloc.
        set (c := mkNode _ _ _ _ _).
        destruct (rebalance_repr ck cw t (Some (length h1)) (h1 ++ [c])
                    (Weight nd) (Key nd) (Item nd) l (T rw rk rv rl rr) Ht)
          as (p & h2 & E3 & P2 & R2).
        { eapply repr_root; [apply lookup_fresh| | |reflexivity..];
            cbn [Left Right c].
          - eapply repr_prefix; [|exact Hl].
            etransitivity; [exact P1 | apply prefix_snoc].
          - eapply repr_prefix; [apply prefix_snoc | exact R1]. }
        erewrite bind_Ok by exact E3. unfold ret.
        exists p, h2. split; [reflexivity|]. split; [|split; [exact R2|]].
        + etransitivity; [exact P1|].
          etransitivity; [apply prefix_snoc | exact P2].
        + intros ->. apply repr_nil_inv in R2. exfalso. revert R2.
          apply rebalanceT_not_E. discriminate. }
    destruct update; cbn [negb].
    2:{ unfold ret. cbn [fst snd].
        exists None, h. repeat split; [reflexivity | constructor]. }
    assert (Hig : (match fn with
                   | Some f => rd (fun h0 => Ok (negb (f (Some a) h0)))
                   | None => ret false
                   end) h = Ok (reject, h)).
    { unfold fn_answers in Hfn. destruct fn as [f|].
      - unfold rd. cbn [obind].
        rewrite (Hfn a); [reflexivity|].
        apply (stops_here ck h k a nd Ha).
        + intros H. rewrite H in E1. discriminate.
        + intros H. rewrite H in E2. discriminate.
      - rewrite Hfn. reflexivity. }
    erewrite bind_Ok by exact Hig.
    destruct reject.
    { unfold ret. cbn [fst snd]. exists (Some a), h.
      split; [reflexivity|]. split; [reflexivity|]. split; [exact Hn|].
      discriminate. }
    rewrite bind_alloc_set_Item. cbn [Weight Key Item Left Right].
    set (c := mkNode _ _ _ _ _).
    destruct (rebalance_repr ck cw t (Some (length h)) (h ++ [c])
                w (Key nd) (if create then v else Item nd) l r Ht)
      as (p & h2 & E3 & P2 & R2).
    { eapply repr_root; [apply lookup_fresh| | |reflexivity..];
        cbn [Left Right c]; (eapply repr_prefix; [apply prefix_snoc|]);
        assumption. }
    erewrite bind_Ok by exact E3. unfold ret. cbn [fst snd].
    exists p, h2. split; [reflexivity|]. split; [|split; [exact R2|]].
    + etransitivity; [apply prefix_snoc | exact P2].
    + intros ->. apply repr_nil_inv in R2. exfalso. revert R2.
      apply rebalanceT_not_E. discriminate.
Qed.

End Upsert.

(** ** What upsert does to the bindings *)

Section UpsertContents.

Context {K V : Type}.

Local Abbreviation tree := (tree K V).
Local Abbreviation heap := (heap K V).

Implicit Types (h : heap) (p n : ptr) (tr : tree) (t : Treap K).
Implicit Types (k key : K) (v : V) (w : Z).
Implicit Types (create update reject : bool).

Variable ck : K -> K -> Z.
Variable cw : Z -> Z -> Z.

Lemma all_keys_upsertT (P : K -> Prop) tr k v w create update reject :
  P k -> all_keys P tr ->
  all_keys P (fst (upsertT ck cw tr k v w create update reject)).
Proof.
  intros Hk. induction tr as [|nw nk nv l IHl r IHr]; cbn [upsertT].
  - destruct create; simpl; auto.
  - intros (Hnk & Hl & Hr).
    destruct (ck k nk =? -1).
    { destruct (upsertT ck cw l k v w create update reject)
        as [[|rw rk rv rl rr] created]; [exact I|].
      cbn [fst] in *. apply all_keys_rebalanceT. simpl. simpl in IHl. auto. }
    destruct (ck k nk =? 1).
    { destruct (upsertT ck cw r k v w create update reject)
        as [[|rw rk rv rl rr] created]; [exact I|].
      cbn [fst] in *. apply all_keys_rebalanceT. simpl. simpl in IHr. auto. }
    destruct (negb update); [exact I|].
    destruct reject; cbn [fst]; [simpl; auto|].
    apply all_keys_rebalanceT. simpl. auto.
Qed.

Lemma set_item_id k v (l : list (K * V)) :
  Forall (fun x => ck k x <> 0) (map fst l) -> set_item ck k v l = l.
Proof.
  unfold set_item. induction l as [|[k' v'] l IH]; simpl; [reflexivity|].
  intros [Hk Hl]%Forall_cons. rewrite (IH Hl).
  simpl in Hk. rewrite (proj2 (Z.eqb_neq _ _) Hk). reflexivity.
Qed.

Lemma set_item_app k v (l1 l2 : list (K * V)) :
  set_item ck k v (l1 ++ l2) = set_item ck k v l1 ++ set_item ck k v l2.
Proof. unfold set_item. apply map_app. Qed.

Lemma set_item_cons k v k' v' (l : list (K * V)) :
  set_item ck k v ((k', v') :: l) =
  (if ck k k' =? 0 then (k', v) else (k', v')) :: set_item ck k v l.
Proof. reflexivity. Qed.

Lemma set_item_keys k v (l : list (K * V)) :
  map fst (set_item ck k v l) = map fst l.
Proof.
  unfold set_item. induction l as [|[k' v'] l IH]; simpl; [reflexivity|].
  rewrite IH. destruct (ck k k' =? 0); reflexivity.
Qed.

Hypothesis Hck : KeyOrder ck.

Lemma bst_upsertT tr k v w create update reject :
  bst ck tr -> bst ck (fst (upsertT ck cw tr k v w create update reject)).
Proof.
  induction tr as [|nw nk nv l IHl r IHr]; cbn [upsertT].
  - destruct create; simpl; auto.
  - intros (Hl & Hr & Bl & Br).
    destruct (ck k nk =? -1) eqn:E1.
    { apply Z.eqb_eq in E1.
      pose proof (all_keys_upsertT (fun x => ck x nk = -1) l k v w
                    create update reject E1 Hl) as Hl'.
      specialize (IHl Bl).
      destruct (upsertT ck cw l k v w create update reject)
        as [[|rw rk rv rl rr] created]; [exact I|].
      cbn [fst] in *. apply (bst_rebalanceT ck cw Hck). cbn [bst]. auto. }
    destruct (ck k nk =? 1) eqn:E2.
    { apply Z.eqb_eq in E2.
      pose proof (all_keys_upsertT (fun x => ck x nk = 1) r k v w
                    create update reject E2 Hr) as Hr'.
      specialize (IHr Br).
      destruct (upsertT ck cw r k v w create update reject)
        as [[|rw rk rv rl rr] created]; [exact I|].
      cbn [fst] in *. apply (bst_rebalanceT ck cw Hck). cbn [bst]. auto. }
    destruct (negb update); [exact I|].
    destruct reject; cbn [fst]; [cbn [bst]; auto|].
    apply (bst_rebalanceT ck cw Hck). cbn [bst]. auto.
Qed.

(** The keys that compare with [nk] otherwise than [k] does differ from [k]. *)
Lemma keys_ne k nk (c : Z) tr :
  all_keys (fun y => ck y nk = c) tr -> ck k nk <> c ->
  Forall (fun y => ck k y <> 0) (map fst (elements tr)).
Proof.
  intros Hall Hne. apply all_keys_Forall in Hall.
  eapply Forall_impl; [exact Hall|]. intros y Hy H0. simpl in Hy.
  apply (ck_eq ck Hck) in H0. subst y. contradiction.
Qed.

(** On the in-order traversal of a search tree: an absent key is inserted
    when [create] is set; a present key has its item replaced when [update]
    and [create] are set and [fn] did not refuse; nothing else changes. *)
Lemma upsertT_elements tr k v w create update reject :
  bst ck tr ->
  match ins ck k v (elements tr) with
  | Some l' =>
    if create then
      snd (upsertT ck cw tr k v w create update reject) = true /\
      fst (upsertT ck cw tr k v w create update reject) <> E /\
      elements (fst (upsertT ck cw tr k v w create update reject)) = l'
    else upsertT ck cw tr k v w create update reject = (E, false)
  | None =>
    if update then
      snd (upsertT ck cw tr k v w create update reject) = false /\
      fst (upsertT ck cw tr k v w create update reject) <> E /\
      elements (fst (upsertT ck cw tr k v w create update reject)) =
        (if reject || negb create then elements tr
         else set_item ck k v (elements tr))
    else upsertT ck cw tr k v w create update reject = (E, false)
  end.
Proof.
  induction tr as [|nw nk nv l IHl r IHr]; cbn [upsertT elements].
  - intros _. simpl. destruct create; [|reflexivity].
    repeat split. discriminate.
  - intros (Hl & Hr & Bl & Br).
    destruct (ck k nk =? -1) eqn:E1.
    { apply Z.eqb_eq in E1. rewrite (ins_app_lt ck _ _ _ _ _ _ E1).
      specialize (IHl Bl). clear IHr.
      assert (Hid : set_item ck k v ((nk, nv) :: elements r)
                    = (nk, nv) :: elements r).
      { apply set_item_id. simpl. constructor; [simpl; lia|].
        apply (keys_ne k nk 1 r Hr). lia. }
      destruct (upsertT ck cw l k v w create update reject)
        as [res created] eqn:ER.
      destruct (ins ck k v (elements l)) as [l'|]; cbn [option_map].
      - destruct create; cbn [fst snd] in *.
        + destruct IHl as (Hc & Hne & Hel).
          destruct res as [|rw rk rv rl rr]; [congruence|].
          cbn [fst snd]. split; [exact Hc|].
          split; [apply rebalanceT_not_E; discriminate|].
          rewrite elements_rebalanceT. cbn [elements]. rewrite <- Hel.
          reflexivity.
        + injection IHl as -> ->. reflexivity.
      - destruct update; cbn [fst snd] in *.
        + destruct IHl as (Hc & Hne & Hel).
          destruct res as [|rw rk rv rl rr]; [congruence|].
          cbn [fst snd]. split; [exact Hc|].
          split; [apply rebalanceT_not_E; discriminate|].
          rewrite elements_rebalanceT.
          change (elements (T nw nk nv (T rw rk rv rl rr) r))
            with (elements (T rw rk rv rl rr) ++ (nk, nv) :: elements r).
          rewrite Hel.
          destruct (reject || negb create); [reflexivity|].
          rewrite set_item_app, Hid. reflexivity.
        + injection IHl as -> ->. reflexivity. }
    apply Z.eqb_neq in E1.
    assert (Hll : Forall (fun y => ck k y <> 0) (map fst (elements l))).
    { apply (keys_ne k nk (-1) l Hl E1). }
    assert (Hall : Forall (fun y => ck k y = 1) (map fst (elements l))).
    { apply (proj1 (all_keys_Forall (fun y => ck k y = 1) l)).
      eapply all_keys_impl; [|exact Hl]. intros y Hy. simpl in Hy.
      apply (ck_flip ck Hck).
      destruct (ck_range ck Hck k nk) as [H|[H|H]]; [congruence| |].
      - apply (ck_eq ck Hck) in H. subst nk. exact Hy.
      - eapply (ck_trans ck Hck); [exact Hy|]. apply (ck_flip ck Hck). exact H. }
    rewrite (ins_app_gt ck _ _ _ _ Hall). cbn [ins].
    rewrite (proj2 (Z.eqb_neq _ _) E1).
    destruct (ck k nk =? 1) eqn:E2.
    { apply Z.eqb_eq in E2. specialize (IHr Br). clear IHl.
      destruct (upsertT ck cw r k v w create update reject)
        as [res created] eqn:ER.
      destruct (ins ck k v (elements r)) as [l'|]; cbn [option_map].
      - destruct create; cbn [fst snd] in *.
        + destruct IHr as (Hc & Hne & Hel).
          destruct res as [|rw rk rv rl rr]; [congruence|].
          cbn [fst snd]. split; [exact Hc|].
          split; [apply rebalanceT_not_E; discriminate|].
          rewrite elements_rebalanceT. cbn [elements]. rewrite <- Hel.
          reflexivity.
        + injection IHr as -> ->. reflexivity.
      - destruct update; cbn [fst snd] in *.
        + destruct IHr as (Hc & Hne & Hel).
          destruct res as [|rw rk rv rl rr]; [congruence|].
          cbn [fst snd]. split; [exact Hc|].
          split; [apply rebalanceT_not_E; discriminate|].
          rewrite elements_rebalanceT.
          change (elements (T nw nk nv l (T rw rk rv rl rr)))
            with (elements l ++ (nk, nv) :: elements (T rw rk rv rl rr)).
          rewrite Hel.
          destruct (reject || negb create); [reflexivity|].
          rewrite set_item_app, (set_item_id k v _ Hll), set_item_cons.
          rewrite (proj2 (Z.eqb_neq (ck k nk) 0)) by lia. reflexivity.
        + injection IHr as -> ->. reflexivity. }
    apply Z.eqb_neq in E2. cbn [option_map].
    assert (E0 : ck k nk = 0).
    { destruct (ck_range ck Hck k nk) as [H|[H|H]]; congruence. }
    destruct update; cbn [negb]; [|reflexivity].
    destruct reject; cbn [fst snd orb].
    { repeat split. discriminate. }
    split; [reflexivity|].
    split; [apply rebalanceT_not_E; discriminate|].
    rewrite elements_rebalanceT. cbn [elements].
    destruct create; cbn [negb]; [|reflexivity].
    rewrite set_item_app, (set_item_id k v _ Hll), set_item_cons.
    rewrite E0. cbn [Z.eqb].
    rewrite (set_item_id k v (elements r)); [reflexivity|].
    apply (keys_ne k nk 1 r Hr). lia.
Qed.

End UpsertContents.

(** ** Lookups and the bindings of a search tree *)

Section Bindings.

Context {K V : Type}.

Local Abbreviation tree := (tree K V).
Local Abbreviation heap := (heap K V).

Implicit Types (h : heap) (p n root newRoot : ptr) (tr : tree) (t : Treap K).
Implicit Types (k key : K) (v : V) (w : Z).

Variable ck : K -> K -> Z.
Variable cw : Z -> Z -> Z.

Lemma GetT_cases tr key :
  GetT ck tr key = (None, false) \/ exists v, GetT ck tr key = (Some v, true).
Proof.
  unfold GetT. destruct (GetNodeT ck tr key) as [[|w k v l r] [|]]; eauto.
Qed.

Lemma all_keys_In (P : K -> Prop) tr key v :
  all_keys P tr -> In (key, v) (elements tr) -> P key.
Proof.
  intros Hall Hin. apply all_keys_Forall in Hall.
  rewrite Forall_forall in Hall. apply Hall.
  apply list_elem_of_In. unfold keys.
  change key with (fst (key, v)). apply in_map. exact Hin.
Qed.

Hypothesis Hck : KeyOrder ck.

(** In a search tree a lookup finds a binding exactly when the tree holds
    it. *)
Lemma GetT_In tr key v :
  bst ck tr -> GetT ck tr key = (Some v, true) <-> In (key, v) (elements tr).
Proof.
  induction tr as [|w k v0 l IHl r IHr]; simpl.
  - intros _. split; [discriminate | tauto].
  - intros (Hl & Hr & Bl & Br). rewrite GetT_node, in_app_iff. simpl.
    specialize (IHl Bl). specialize (IHr Br).
    assert (HL : In (key, v) (elements l) -> ck key k = -1).
    { apply (all_keys_In (fun y => ck y k = -1)). exact Hl. }
    assert (HR : In (key, v) (elements r) -> ck key k = 1).
    { apply (all_keys_In (fun y => ck y k = 1)). exact Hr. }
    destruct (ck_range ck Hck key k) as [H|[H|H]]; rewrite H; simpl.
    + rewrite IHl. split; [tauto|].
      intros [Hin|[Heq|Hin]]; [exact Hin| |].
      * injection Heq as -> _. rewrite (ck_refl ck Hck) in H. discriminate.
      * apply HR in Hin. congruence.
    + apply (ck_eq ck Hck) in H. subst key. split.
      * intros [= ->]. auto.
      * intros [Hin|[Heq|Hin]].
        -- apply HL in Hin. rewrite (ck_refl ck Hck) in Hin. discriminate.
        -- injection Heq as ->. reflexivity.
        -- apply HR in Hin. rewrite (ck_refl ck Hck) in Hin. discriminate.
    + rewrite IHr. split; [tauto|].
      intros [Hin|[Heq|Hin]]; [| |exact Hin].
      * apply HL in Hin. congruence.
      * injection Heq as -> _. rewrite (ck_refl ck Hck) in H. discriminate.
Qed.

Lemma GetT_not_In tr key :
  bst ck tr -> GetT ck tr key = (None, false) <-> ~ In key (keys tr).
Proof.
  intros Hb. split.
  - intros Hg Hin. unfold keys in Hin. apply in_map_iff in Hin as ([k v] & Hk & Hin).
    simpl in Hk. subst k. apply (GetT_In tr key v Hb) in Hin. congruence.
  - intros Hnin. destruct (GetT_cases tr key) as [Hg|[v Hg]]; [exact Hg|].
    exfalso. apply Hnin. apply (GetT_In tr key v Hb) in Hg.
    unfold keys. change key with (fst (key, v)). apply in_map. exact Hg.
Qed.

(** Two search trees with the same bindings answer every lookup alike. *)
Lemma GetT_same_bindings tr tr' key :
  bst ck tr -> bst ck tr' ->
  (forall v, In (key, v) (elements tr') <-> In (key, v) (elements tr)) ->
  GetT ck tr' key = GetT ck tr key.
Proof.
  intros Hb Hb' Hsame.
  destruct (GetT_cases tr key) as [Hg|[v Hg]]; rewrite Hg.
  - destruct (GetT_cases tr' key) as [Hg'|[v Hg']]; [exact Hg'|].
    apply (GetT_In tr' key v Hb'), Hsame, (GetT_In tr key v Hb) in Hg'.
    congruence.
  - apply (GetT_In tr' key v Hb'), Hsame, (GetT_In tr key v Hb). exact Hg.
Qed.

(** A key that a search tree holds is refused by [ins], a key it lacks is
    accepted. *)
Lemma ins_present tr k v :
  bst ck tr -> snd (GetNodeT ck tr k) = true ->
  ins ck k v (elements tr) = None.
Proof.
  intros Hb Hf.
  pose proof (InsertT_elements ck cw Hck tr k v 0 Hb) as He.
  rewrite (InsertT_present ck cw tr k v 0 Hf) in He.
  destruct (ins ck k v (elements tr)); [|reflexivity].
  destruct He as [He _]. discriminate.
Qed.

Lemma ins_absent tr k v :
  bst ck tr -> snd (GetNodeT ck tr k) = false ->
  exists l', ins ck k v (elements tr) = Some l'.
Proof.
  intros Hb Hm.
  pose proof (InsertT_elements ck cw Hck tr k v 0 Hb) as He.
  destruct (InsertT_absent ck cw tr k v 0 (ck_range ck Hck) Hm) as [Hc _].
  destruct (ins ck k v (elements tr)) as [l'|]; [eauto|].
  rewrite He in Hc. discriminate.
Qed.

(** Get is sound and complete on a search tree: it returns (v, true) exactly
    when the tree holds the binding of the key to v, and (nil, false) exactly
    when no node carries the key. *)
Theorem Get_finds_the_bindings t h root tr key (fuel : nat) :
  uses ck cw t ->
  repr h root tr -> bst ck tr -> (height tr < fuel)%nat ->
  (forall v, Get fuel t root key h = Ok (Some v, true) <->
             In (key, v) (elements tr)) /\
  (Get fuel t root key h = Ok (None, false) <-> ~ In key (keys tr)).
Proof.
  intros Ht Hr Hb Hf.
  rewrite (Get_repr ck cw fuel t root key h tr Ht Hr Hf). split.
  - intros v. rewrite <- (GetT_In tr key v Hb).
    split; [intros [= ->]; reflexivity | intros ->; reflexivity].
  - rewrite <- (GetT_not_In tr key Hb).
    split; [intros [= ->]; reflexivity | intros ->; reflexivity].
Qed.

(** Insert of a key that the search tree lacks adds its binding and no
    other: the in-order traversal of the new tree is the old one with (k, v)
    inserted in its place, and the new tree is a search tree. *)
Theorem Insert_adds_one_binding t h root tr k v w (fuel : nat) :
  uses ck cw t ->
  repr h root tr -> bst ck tr -> (height tr < fuel)%nat ->
  Get fuel t root k h = Ok (None, false) ->
  exists newRoot h' tr',
    Insert fuel t root k v w h = Ok ((newRoot, true), h') /\
    repr h' newRoot tr' /\ bst ck tr' /\
    ins ck k v (elements tr) = Some (elements tr') /\
    Permutation (elements tr') ((k, v) :: elements tr).
Proof.
  intros Ht Hr Hb Hf Habsent.
  rewrite (Get_repr ck cw fuel t root k h tr Ht Hr Hf) in Habsent.
  assert (Hmiss : snd (GetNodeT ck tr k) = false).
  { rewrite <- GetT_snd. injection Habsent as ->. reflexivity. }
  destruct (ins_absent tr k v Hb Hmiss) as [l' Hi].
  destruct (Insert_repr ck cw fuel t root k v w h tr Ht Hr Hf)
    as (newRoot & h' & HI & _ & Hr').
  pose proof (InsertT_elements ck cw Hck tr k v w Hb) as He.
  rewrite Hi in He. destruct He as (Hc & _ & He). rewrite Hc in HI.
  exists newRoot, h', (fst (InsertT ck cw tr k v w)).
  split; [exact HI|]. split; [exact Hr'|].
  split; [apply (bst_InsertT ck cw Hck); exact Hb|].
  rewrite He. split; [exact Hi|]. apply (ins_Permutation ck). exact Hi.
Qed.

(** Insert of a new key leaves the lookup of every other key as it was: in
    the root it returns, Get answers for k' <> k what it answers in the input
    root. *)
Theorem Insert_keeps_other_keys t h root tr k v w (fuel : nat)
    newRoot (created : bool) h' k' :
  uses ck cw t ->
  repr h root tr -> bst ck tr -> (height tr < fuel)%nat ->
  Insert fuel t root k v w h = Ok ((newRoot, created), h') ->
  newRoot <> None -> k' <> k ->
  exists fuel0, forall fuel', (fuel0 <= fuel')%nat ->
    Get fuel' t newRoot k' h' = Get fuel' t root k' h.
Proof.
  intros Ht Hr Hb Hf HI Hnn Hne.
  destruct (Insert_repr ck cw fuel t root k v w h tr Ht Hr Hf)
    as (n1 & h1 & HI1 & _ & Hr').
  rewrite HI in HI1. injection HI1 as <- Hc <-.
  pose proof (InsertT_elements ck cw Hck tr k v w Hb) as He.
  destruct (ins ck k v (elements tr)) as [l'|] eqn:Hi.
  2:{ rewrite He in Hr'. apply repr_E_inv in Hr'. contradiction. }
  destruct He as (_ & _ & He).
  pose proof (ins_Permutation ck _ _ _ _ Hi) as Hp. rewrite <- He in Hp.
  exists (S (Nat.max (height tr) (height (fst (InsertT ck cw tr k v w))))).
  intros fuel' Hf'.
  rewrite (Get_repr ck cw fuel' t newRoot k' h' _ Ht Hr' ltac:(lia)).
  rewrite (Get_repr ck cw fuel' t root k' h tr Ht Hr ltac:(lia)).
  f_equal. apply GetT_same_bindings;
    [exact Hb | apply (bst_InsertT ck cw Hck); exact Hb |].
  intros v'. split.
  - intros Hin. apply (Permutation_in _ Hp) in Hin.
    destruct Hin as [Heq|Hin]; [congruence | exact Hin].
  - intros Hin. apply (Permutation_in _ (Permutation_sym Hp)). right. exact Hin.
Qed.

(** In a search tree that is not empty, Min returns the item of the least key
    and Max the item of the greatest. *)
Theorem Min_least_Max_greatest t h tr (fuel : nat) :
  repr h (root t) tr -> bst ck tr -> tr <> E ->
  (height tr <= fuel)%nat ->
  exists kmin vmin kmax vmax,
    Min fuel t h = Ok (Some vmin) /\ In (kmin, vmin) (elements tr) /\
    Max fuel t h = Ok (Some vmax) /\ In (kmax, vmax) (elements tr) /\
    forall k', In k' (keys tr) ->
      (k' = kmin \/ ck kmin k' = -1) /\ (k' = kmax \/ ck k' kmax = -1).
Proof.
  intros Hr Hb Hne Hf.
  rewrite (Min_repr fuel t h tr Hr Hf), (Max_repr fuel t h tr Hr Hf).
  apply (bst_sorted ck Hck) in Hb. unfold keys in *.
  destruct (elements tr) as [|[k0 v0] l] eqn:He.
  { apply elements_nil in He. contradiction. }
  destruct (last ((k0, v0) :: l)) as [[k1 v1]|] eqn:Hl.
  2:{ apply last_None in Hl. discriminate. }
  exists k0, v0, k1, v1.
  split; [reflexivity|]. split; [left; reflexivity|]. split; [reflexivity|].
  apply last_Some in Hl as [l' Hl]. split.
  { rewrite Hl. apply in_app_iff. right. left. reflexivity. }
  intros k' Hin. split.
  - cbn [map fst] in Hb, Hin.
    apply StronglySorted_inv in Hb as [_ Hb]. rewrite Forall_forall in Hb.
    destruct Hin as [<-|Hin]; [auto|]. right.
    apply Hb, list_elem_of_In. exact Hin.
  - rewrite Hl in Hb, Hin. rewrite map_app in Hb, Hin. simpl in Hb, Hin.
    apply StronglySorted_app_iff in Hb as (_ & _ & Hb).
    rewrite Forall_forall in Hb.
    apply in_app_iff in Hin as [Hin|[<-|[]]]; [|auto]. right.
    apply list_elem_of_In in Hin. specialize (Hb _ Hin).
    apply Forall_cons in Hb as [Hb _]. exact Hb.
Qed.

End Bindings.

(** ** upsert on a present and on an absent key *)

Section UpsertKeys.

Context {K V : Type}.

Local Abbreviation tree := (tree K V).
Local Abbreviation heap := (heap K V).
Local Abbreviation Node := (Node K V).

Implicit Types (h : heap) (p n : ptr) (tr : tree) (t : Treap K) (N : Node).
Implicit Types (k key : K) (v : V) (w : Z).
Implicit Types (create update reject : bool).
Implicit Types (fn : option (ptr -> heap -> bool)).

Variable ck : K -> K -> Z.
Variable cw : Z -> Z -> Z.


Hypothesis Hck : KeyOrder ck.

(** The descent for a key that the tree lacks ends at no node. *)
Lemma stops_at_absent h n tr k (a : nat) :
  repr h n tr -> snd (GetNodeT ck tr k) = false -> ~ stops_at ck h k n a.
Proof.
  intros Hr. induction Hr as [|b nd l r Hb _ IHl _ IHr]; cbn [GetNodeT].
  - intros _ Hs. inversion Hs.
  - intros Hm Hs.
    inversion Hs as [b' nd' Hb' H1 H2|b' c nd' Hb' H1 Hs'|b' c nd' Hb' H1 Hs'];
      subst; rewrite Hb in Hb'; injection Hb' as <-.
    + destruct (ck_range ck Hck k (Key nd)) as [H|[H|H]]; try contradiction.
      rewrite H in Hm. discriminate.
    + rewrite H1 in Hm. apply IHl; assumption.
    + rewrite H1 in Hm. apply IHr; assumption.
Qed.

Lemma fn_answers_absent fn h n tr k :
  repr h n tr -> snd (GetNodeT ck tr k) = false ->
  fn_answers ck fn h n k false.
Proof.
  intros Hr Hm. unfold fn_answers. destruct fn as [f|]; [|reflexivity].
  intros a Hs. exfalso. revert Hs. eapply stops_at_absent; eassumption.
Qed.

(** upsert on a key that the search tree holds.  Without [update] it is the
    no-op that returns nil.  With [update] nothing is created and the tree
    returned is a search tree with the same keys; its bindings are those of
    the input, except that the item of k becomes v when [create] is set and
    the predicate did not refuse. *)
Theorem upsert_on_present_key t h n tr k v w create update fn reject
    (x : V) (fuel : nat) :
  uses ck cw t -> fn_answers ck fn h n k reject ->
  repr h n tr -> bst ck tr -> (height tr < fuel)%nat ->
  Get fuel t n k h = Ok (Some x, true) ->
  if update then
    exists n' h' tr',
      upsert fuel t n k v w create update fn h = Ok ((n', false), h') /\
      repr h' n' tr' /\ bst ck tr' /\
      elements tr' = (if reject || negb create then elements tr
                      else set_item ck k v (elements tr))
  else upsert fuel t n k v w create update fn h = Ok ((None, false), h).
Proof.
  intros Ht Hfn Hr Hb Hf Hpresent.
  rewrite (Get_repr ck cw fuel t n k h tr Ht Hr Hf) in Hpresent.
  assert (Hfound : snd (GetNodeT ck tr k) = true).
  { rewrite <- GetT_snd. injection Hpresent as ->. reflexivity. }
  pose proof (upsertT_elements ck cw Hck tr k v w create update reject Hb) as He.
  rewrite (ins_present ck cw Hck tr k v Hb Hfound) in He.
  destruct (upsert_repr ck cw fuel t n k v w create update fn reject h tr
              Ht Hfn Hr Hf) as (n' & h' & HU & _ & Hr' & Hnil).
  destruct update.
  - destruct He as (Hc & _ & He). rewrite Hc in HU.
    exists n', h', (fst (upsertT ck cw tr k v w create true reject)).
    split; [exact HU|]. split; [exact Hr'|]. split; [|exact He].
    apply (bst_upsertT ck cw Hck). exact Hb.
  - rewrite He in HU, Hr'. cbn [fst snd] in *.
    apply repr_E_inv in Hr'. subst n'. rewrite (Hnil eq_refl) in HU. exact HU.
Qed.

(** upsert on a key that the search tree lacks.  Without [create] it is the
    no-op that returns nil and allocates nothing, and the predicate is not
    asked.  With [create] the key is created and the tree returned is a search
    tree whose in-order traversal is the old one with (k, v) inserted in its
    place. *)
Theorem upsert_on_absent_key t h n tr k v w create update fn (fuel : nat) :
  uses ck cw t ->
  repr h n tr -> bst ck tr -> (height tr < fuel)%nat ->
  Get fuel t n k h = Ok (None, false) ->
  if create then
    exists n' h' tr',
      upsert fuel t n k v w create update fn h = Ok ((n', true), h') /\
      repr h' n' tr' /\ bst ck tr' /\
      ins ck k v (elements tr) = Some (elements tr')
  else upsert fuel t n k v w create update fn h = Ok ((None, false), h).
Proof.
  intros Ht Hr Hb Hf Habsent.
  rewrite (Get_repr ck cw fuel t n k h tr Ht Hr Hf) in Habsent.
  assert (Hmiss : snd (GetNodeT ck tr k) = false).
  { rewrite <- GetT_snd. injection Habsent as ->. reflexivity. }
  pose proof (upsertT_elements ck cw Hck tr k v w create update false Hb) as He.
  destruct (ins_absent ck cw Hck tr k v Hb Hmiss) as [l' Hi]. rewrite Hi in He.
  destruct (upsert_repr ck cw fuel t n k v w create update fn false h tr
              Ht (fn_answers_absent fn h n tr k Hr Hmiss) Hr Hf)
    as (n' & h' & HU & _ & Hr' & Hnil).
  destruct create.
  - destruct He as (Hc & _ & He). rewrite Hc in HU.
    exists n', h', (fst (upsertT ck cw tr k v w true update false)).
    split; [exact HU|]. split; [exact Hr'|]. split; [|rewrite He; exact Hi].
    apply (bst_upsertT ck cw Hck). exact Hb.
  - rewrite He in HU, Hr'. cbn [fst snd] in *.
    apply repr_E_inv in Hr'. subst n'. rewrite (Hnil eq_refl) in HU. exact HU.
Qed.

End UpsertKeys.

(** ** Allocation, rotations, priorities *)

Section Resources.

Context {K V : Type}.

Local Abbreviation tree := (tree K V).
Local Abbreviation heap := (heap K V).
Local Abbreviation Node := (Node K V).

Implicit Types (h : heap) (p n : ptr) (tr : tree) (t : Treap K) (N : Node).
Implicit Types (k key : K) (v : V) (w : Z).
Implicit Types (fn : option (ptr -> heap -> bool)).

Lemma leftRotation_alloc t n h p h' :
  leftRotation t n h = Ok (p, h') -> length h' = (length h + 2)%nat.
Proof.
  unfold leftRotation, bind, rd, alloc.
  destruct (load n h) as [nd| | | |]; cbn [obind]; try discriminate.
  destruct (load (Left nd) h) as [ld| | | |]; cbn [obind]; try discriminate.
  intros [= _ <-]. rewrite !length_app. simpl. lia.
Qed.

Lemma rightRotation_alloc t n h p h' :
  rightRotation t n h = Ok (p, h') -> length h' = (length h + 2)%nat.
Proof.
  unfold rightRotation, bind, rd, alloc.
  destruct (load n h) as [nd| | | |]; cbn [obind]; try discriminate.
  destruct (load (Right nd) h) as [rn| | | |]; cbn [obind]; try discriminate.
  intros [= _ <-]. rewrite !length_app. simpl. lia.
Qed.

Lemma outranks_Ok t p w h (b : bool) h' :
  outranks t p w h = Ok (b, h') -> h' = h.
Proof.
  destruct (outranks_cases t p w h)
    as [E1|[(a & _ & E1)|(a & _ & [E1|E1])]]; rewrite E1; congruence.
Qed.

Lemma rebalance_alloc t res h p h' :
  rebalance t res h = Ok (p, h') -> (length h' <= length h + 2)%nat.
Proof.
  unfold rebalance. intros H.
  apply bind_Ok_inv in H as (rn & h1 & H1 & H).
  unfold rd in H1. destruct (load res h); cbn [obind] in H1; try discriminate.
  injection H1 as -> <-.
  apply bind_Ok_inv in H as (lt & h2 & H2 & H).
  apply outranks_Ok in H2 as ->.
  destruct lt.
  { apply leftRotation_alloc in H. lia. }
  apply bind_Ok_inv in H as (gt & h3 & H3 & H).
  apply outranks_Ok in H3 as ->.
  destruct gt.
  { apply rightRotation_alloc in H. lia. }
  injection H as _ <-. lia.
Qed.

Lemma rd_Ok {A : Type} (r : heap -> outcome A) h (a : A) h' :
  rd r h = Ok (a, h') -> h' = h.
Proof.
  unfold rd. destruct (r h); cbn [obind]; try discriminate.
  intros [= _ <-]. reflexivity.
Qed.

(** upsert allocates at most three cells for each level it descends. *)
Lemma upsert_alloc fuel t n k v w (create update : bool) fn h
    (r : ptr * bool) h' :
  upsert fuel t n k v w create update fn h = Ok (r, h') ->
  (length h' <= length h + 3 * fuel)%nat.
Proof.
  revert n h r h'. induction fuel as [|fuel IH]; intros n h r h'.
  - discriminate.
  - cbn [upsert]. destruct n as [a|].
    2:{ destruct create.
        - rewrite bind_alloc. unfold ret. intros [= _ <-].
          rewrite length_app. simpl. lia.
        - unfold ret. intros [= _ <-]. lia. }
    intros H.
    apply bind_Ok_inv in H as (hd & h1 & H1 & H). apply rd_Ok in H1 as ->.
    apply bind_Ok_inv in H as (nd & h2 & H2 & H). apply rd_Ok in H2 as ->.
    apply bind_Ok_inv in H as (c & h3 & H3 & H). apply rd_Ok in H3 as ->.
    assert (Hrebuild : forall (res : ptr) (created : bool) h4
              (f : Node -> Node),
              (length h4 <= length h + 3 * fuel)%nat ->
              bind (rd (load (Some a))) (fun nd0 =>
                bind (alloc (f nd0)) (fun res0 =>
                  bind (rebalance t res0) (fun res1 => ret (res1, created)))) h4
                = Ok (r, h') ->
              (length h' <= length h + 3 * S fuel)%nat).
    { intros res created h4 f Hle H'.
      apply bind_Ok_inv in H' as (nd0 & h5 & H5 & H'). apply rd_Ok in H5 as ->.
      rewrite bind_alloc in H'.
      apply bind_Ok_inv in H' as (res1 & h6 & H6 & H').
      apply rebalance_alloc in H6. rewrite length_app in H6. simpl in H6.
      injection H' as _ <-. lia. }
    destruct (c =? -1).
    { apply bind_Ok_inv in H as ([res created] & h4 & H4 & H).
      apply IH in H4. destruct res as [b|].
      - eapply (Hrebuild (Some b) created h4
                  (fun nd0 => mkNode (Weight nd0) (Key nd0) (Item nd0)
                                (Some b) (Right nd0))); eassumption.
      - injection H as _ <-. lia. }
    destruct (c =? 1).
    { apply bind_Ok_inv in H as ([res created] & h4 & H4 & H).
      apply IH in H4. destruct res as [b|].
      - eapply (Hrebuild (Some b) created h4
                  (fun nd0 => mkNode (Weight nd0) (Key nd0) (Item nd0)
                                (Left nd0) (Some b))); eassumption.
      - injection H as _ <-. lia. }
    destruct (negb update).
    { injection H as _ <-. lia. }
    apply bind_Ok_inv in H as (ignore & h4 & H4 & H).
    assert (h4 = h) as ->.
    { destruct fn; [apply rd_Ok in H4; exact H4 | injection H4 as _ <-; reflexivity]. }
    destruct ignore.
    { injection H as _ <-. lia. }
    rewrite bind_alloc_set_Item in H.
    apply bind_Ok_inv in H as (res1 & h6 & H6 & H).
    apply rebalance_alloc in H6. rewrite length_app in H6. simpl in H6.
    injection H as _ <-. lia.
Qed.

(** Insert copies the search path and no more: it allocates at most three
    cells for each level of the tree and one for the new leaf, whatever fuel
    it was run with. *)
Theorem Insert_allocation_bound (ck : K -> K -> Z) (cw : Z -> Z -> Z)
    t h n tr k v w (fuel : nat) (res : ptr) (created : bool) h' :
  uses ck cw t -> repr h n tr ->
  Insert fuel t n k v w h = Ok ((res, created), h') ->
  (length h <= length h' <= length h + 3 * (height tr + 1))%nat.
Proof.
  intros Ht Hr HI. split.
  { apply grows_Insert, prefix_length in HI. exact HI. }
  destruct (Insert_repr ck cw (S (height tr)) t n k v w h tr Ht Hr ltac:(lia))
    as (n0 & h0 & H0 & _ & _).
  assert (Hsame : h' = h0).
  { unfold Insert in *.
    destruct (Nat.le_ge_cases fuel (S (height tr))) as [Hle|Hle].
    - apply (upsert_fuel_mono fuel (S (height tr))) in HI; [|exact Hle].
      congruence.
    - apply (upsert_fuel_mono (S (height tr)) fuel) in H0; [|exact Hle].
      congruence. }
  subst h0. apply upsert_alloc in H0. lia.
Qed.

(** The two rotations undo each other: a right rotation of the result of a
    left rotation stands for the tree the left rotation started from, and the
    other way round. *)
Theorem rotations_are_inverse t h n w k v (a b c : tree) w' k' v' :
  (repr h n (T w k v (T w' k' v' a b) c) ->
   exists p h1 q h2,
     leftRotation t n h = Ok (p, h1) /\ rightRotation t p h1 = Ok (q, h2) /\
     repr h2 q (T w k v (T w' k' v' a b) c)) /\
  (repr h n (T w k v a (T w' k' v' b c)) ->
   exists p h1 q h2,
     rightRotation t n h = Ok (p, h1) /\ leftRotation t p h1 = Ok (q, h2) /\
     repr h2 q (T w k v a (T w' k' v' b c))).
Proof.
  split; intros Hn.
  - destruct (leftRotation_repr t n h _ _ _ _ _ _ _ _ _ Hn)
      as (p & h1 & E1 & _ & R1).
    destruct (rightRotation_repr t p h1 _ _ _ _ _ _ _ _ _ R1)
      as (q & h2 & E2 & _ & R2).
    exists p, h1, q, h2. auto.
  - destruct (rightRotation_repr t n h _ _ _ _ _ _ _ _ _ Hn)
      as (p & h1 & E1 & _ & R1).
    destruct (leftRotation_repr t p h1 _ _ _ _ _ _ _ _ _ R1)
      as (q & h2 & E2 & _ & R2).
    exists p, h1, q, h2. auto.
Qed.

End Resources.

(** ** A treap with a missing comparator *)

Section MissingComparator.

Context {K V : Type}.

Local Abbreviation tree := (tree K V).
Local Abbreviation heap := (heap K V).
Local Abbreviation Node := (Node K V).

Implicit Types (h : heap) (p n : ptr) (tr : tree) (t : Treap K) (nd : Node).
Implicit Types (k key : K) (v : V) (w : Z).

Variable ck : K -> K -> Z.

(** [keys_only t]: the handle of [t] holds the key comparator and no weight
    comparator. *)
Local Abbreviation keys_only t :=
  (handle t = Some (mkHandle None (Some ck))).

Lemma outranks_no_cw t (b : nat) nd w h :
  keys_only t -> h !! b = Some nd -> outranks t (Some b) w h = NilFunc.
Proof.
  intros Ht Hb. unfold outranks, bind, rd, the_handle, load.
  rewrite Ht. cbn [obind]. rewrite Hb. reflexivity.
Qed.

(** A rebuilt node with a child panics at the first weight comparison. *)
Lemma rebalance_no_cw t (a : nat) nd h :
  keys_only t -> h !! a = Some nd ->
  (exists b x, h !! b = Some x /\
     (Left nd = Some b \/ (Left nd = None /\ Right nd = Some b))) ->
  rebalance t (Some a) h = NilFunc.
Proof.
  intros Ht Ha (b & x & Hb & [HL|[HL HR]]).
  - unfold rebalance. erewrite bind_rd by (unfold load; rewrite Ha; reflexivity).
    unfold bind at 1. rewrite HL, (outranks_no_cw t b x _ h Ht Hb). reflexivity.
  - unfold rebalance. erewrite bind_rd by (unfold load; rewrite Ha; reflexivity).
    rewrite HL. unfold outranks at 1. unfold bind at 1, ret at 1. cbn [obind].
    unfold bind at 1. rewrite HR, (outranks_no_cw t b x _ h Ht Hb). reflexivity.
Qed.

Lemma Insert_no_cw fuel t n k v w h tr :
  keys_only t ->
  (forall a b, ck a b = -1 \/ ck a b = 0 \/ ck a b = 1) ->
  repr h n tr -> tr <> E -> (height tr < fuel)%nat ->
  snd (GetNodeT ck tr k) = false ->
  Insert fuel t n k v w h = NilFunc.
Proof.
  intros Ht Hrange. unfold Insert. revert fuel n.
  induction tr as [|nw nk nv l IHl r IHr]; intros fuel n Hn Hne Hf;
    [congruence|].
  apply repr_T_inv in Hn as (a & nd & -> & Ha & -> & -> & -> & Hl & Hr).
  destruct fuel as [|fuel]; [simpl in Hf; lia|].
  simpl in Hf. cbn [upsert GetNodeT].
  erewrite bind_rd by (unfold the_handle; rewrite Ht; reflexivity).
  erewrite bind_rd by (unfold load; rewrite Ha; reflexivity).
  erewrite bind_rd by reflexivity. cbn [CompareKeys].
  destruct (Hrange k (Key nd)) as [H|[H|H]]; rewrite H; simpl;
    [|discriminate|]; intros Hm.
  - destruct l as [|lw lk lv ll lr].
    + apply repr_E_inv in Hl. rewrite Hl.
      destruct fuel as [|fuel]; [lia|]. cbn [upsert].
      unfold bind at 1. rewrite bind_alloc. unfold ret. cbn [obind].
      erewrite bind_rd
        by (unfold load; rewrite (lookup_app_l_Some _ _ _ _ Ha); reflexivity).
      rewrite bind_alloc. unfold bind at 1.
      erewrite rebalance_no_cw; [reflexivity | exact Ht | apply lookup_fresh |].
      exists (length h), (mkNode w k v None None). cbn [Left Right].
      split; [|left; reflexivity].
      apply lookup_app_l_Some, lookup_fresh.
    + unfold bind at 1.
      rewrite (IHl fuel (Left nd) Hl ltac:(discriminate) ltac:(lia) Hm).
      reflexivity.
  - destruct r as [|rw rk rv rl rr].
    + apply repr_E_inv in Hr. rewrite Hr.
      destruct fuel as [|fuel]; [lia|]. cbn [upsert].
      unfold bind at 1. rewrite bind_alloc. unfold ret. cbn [obind].
      erewrite bind_rd
        by (unfold load; rewrite (lookup_app_l_Some _ _ _ _ Ha); reflexivity).
      rewrite bind_alloc. unfold bind at 1.
      erewrite rebalance_no_cw; [reflexivity | exact Ht | apply lookup_fresh |].
      cbn [Left Right]. destruct (Left nd) as [b|] eqn:HL.
      * inversion Hl as [|b' x l1 r1 Hb _ _]; subst.
        exists b, x. split; [|left; reflexivity].
        apply lookup_app_l_Some, lookup_app_l_Some. exact Hb.
      * exists (length h), (mkNode w k v None None).
        split; [|right; split; reflexivity].
        apply lookup_app_l_Some, lookup_fresh.
    + unfold bind at 1.
      rewrite (IHr fuel (Right nd) Hr ltac:(discriminate) ltac:(lia) Hm).
      reflexivity.
Qed.

(** NewTreap accepts a handle with a missing comparator, and the treap fails
    later.  With no handle or no key comparator, every lookup and every
    upsert at a root that is not nil panics at the comparator call.  With a
    key comparator and no weight comparator, Insert of a new key below a root
    that is not nil panics at the first weight comparison.  On the nil root
    no comparator is called and Insert returns the new leaf. *)
Theorem missing_comparator_panics t h :
  (forall (fuel a : nat) nd key v w (create update : bool) fn,
     handle t = None \/ (exists hd, handle t = Some hd /\ CompareKeys hd = None) ->
     h !! a = Some nd ->
     GetNode (S fuel) t (Some a) key h = NilFunc /\
     Get (S fuel) t (Some a) key h = NilFunc /\
     upsert (S fuel) t (Some a) key v w create update fn h = NilFunc) /\
  (forall (fuel : nat) n tr k v w,
     handle t = Some (mkHandle None (Some ck)) ->
     (forall a b, ck a b = -1 \/ ck a b = 0 \/ ck a b = 1) ->
     repr h n tr -> tr <> E -> (height tr < fuel)%nat ->
     GetNode fuel t n k h = Ok (None, false) ->
     Insert fuel t n k v w h = NilFunc) /\
  (forall (fuel : nat) k v w,
     Insert (S fuel) t None k v w h =
     Ok ((Some (length h), true), h ++ [mkNode w k v None None])).
Proof.
  split; [|split].
  - intros fuel a nd key v w create update fn Hh Ha.
    assert (HG : GetNode (S fuel) t (Some a) key h = NilFunc).
    { cbn [GetNode]. unfold the_handle, load.
      destruct Hh as [->|(hd & -> & Hk)]; [reflexivity|].
      cbn [obind]. rewrite Ha. cbn [obind]. rewrite Hk. reflexivity. }
    split; [exact HG|]. split.
    + unfold Get. rewrite HG. reflexivity.
    + cbn [upsert]. unfold bind, rd, the_handle, load.
      destruct Hh as [->|(hd & -> & Hk)]; [reflexivity|].
      cbn [obind]. rewrite Ha. cbn [obind]. rewrite Hk. reflexivity.
  - intros fuel n tr k v w Ht Hrange Hr Hne Hf Hmiss.
    apply (Insert_no_cw fuel t n k v w h tr Ht Hrange Hr Hne Hf).
    assert (Hsame : forall fuel' n' tr', repr h n' tr' ->
              (height tr' < fuel')%nat ->
              GetNode fuel' t n' k h = Ok (None, false) ->
              snd (GetNodeT ck tr' k) = false).
    { intros fuel' n' tr' Hr'. revert fuel'.
      induction Hr' as [|a nd l r Ha _ IHl _ IHr]; intros [|fuel'] Hf';
        try (simpl in Hf'; lia); cbn [GetNode GetNodeT]; [reflexivity|].
      unfold the_handle. rewrite Ht. cbn [obind].
      unfold load. rewrite Ha. cbn [obind call CompareKeys].
      simpl in Hf'.
      destruct (ck k (Key nd) <? 0); [apply IHl; lia|].
      destruct (ck k (Key nd) >? 0); [apply IHr; lia|].
      discriminate. }
    eapply Hsame; eassumption.
  - intros fuel k v w. reflexivity.
Qed.

End MissingComparator.

(** ** Runs of Insert *)

Section Runs.

Context {K V : Type}.

Local Abbreviation tree := (tree K V).
Local Abbreviation heap := (heap K V).

Implicit Types (h : heap) (p n : ptr) (tr : tree) (t : Treap K).
Implicit Types (k key : K) (v : V) (w : Z).

Variable ck : K -> K -> Z.
Variable cw : Z -> Z -> Z.

(** The root of every tree built by Insert has top priority: no weight in the
    tree outranks the weight of the root. *)
Theorem reachable_root_has_top_priority t h n :
  WeightOrder cw -> uses ck cw t -> reachable t h n ->
  exists tr, repr h n tr /\
    forall rw rk rv l r, tr = T rw rk rv l r ->
      all_weights (fun y => cw y rw >= 0) tr.
Proof.
  intros Hcw Ht Hreach.
  destruct (reachable_ind_tree ck cw (heap_ordered cw) t h n Ht I)
    as (tr & Hn & Hh); [|exact Hreach|].
  { intros tr k v w Hh. apply (heap_ordered_InsertT ck cw Hcw tr k v w Hh). }
  exists tr. split; [exact Hn|].
  intros rw rk rv l r ->. destruct Hh as (Hl & Hr & Ol & Or).
  simpl. split; [|split].
  - destruct (Z_lt_ge_dec (cw rw rw) 0) as [Hlt|Hge]; [|exact Hge].
    apply (cw_asym cw Hcw) in Hlt. exact Hlt.
  - apply (heap_ordered_above cw Hcw); assumption.
  - apply (heap_ordered_above cw Hcw); assumption.
Qed.

Hypothesis Hck : KeyOrder ck.

(** Inserting bindings with distinct keys into the empty tree, in any order,
    yields a search tree that holds exactly these bindings, listed by its
    in-order traversal in increasing order of key. *)
Theorem InsertAll_sorted_bindings t h (l : list (K * V * Z)) (fuel : nat) :
  uses ck cw t -> NoDup (map fst (map fst l)) -> (length l <= fuel)%nat ->
  exists r h' tr,
    InsertAll fuel t None l h = Ok (r, h') /\
    repr h' r tr /\ bst ck tr /\
    Permutation (elements tr) (map fst l) /\
    StronglySorted (klt ck) (keys tr).
Proof.
  intros Ht Hnd Hf.
  destruct (ins_all_fresh ck Hck l []) as (acc & Hall & Hacc).
  { rewrite app_nil_r. exact Hnd. }
  rewrite app_nil_r in Hacc.
  destruct (InsertAll_elements ck cw Hck fuel t None h E l [] acc
              Ht (repr_nil h) I eq_refl) as (r & h' & tr & HI & Hr & Hb & He);
    [simpl; lia | exact Hall |].
  exists r, h', tr. split; [exact HI|]. split; [exact Hr|].
  split; [exact Hb|]. split; [rewrite He; exact Hacc|].
  apply (bst_sorted ck Hck). exact Hb.
Qed.

(** After Insert has created a key, a second Insert of that key into the
    root it returned is refused: it returns the nil root with created = false
    and allocates nothing. *)
Theorem Insert_twice_is_refused t h n tr k v w v' w' (fuel : nat) :
  uses ck cw t -> repr h n tr -> bst ck tr -> (height tr < fuel)%nat ->
  Get fuel t n k h = Ok (None, false) ->
  exists r1 h1,
    Insert fuel t n k v w h = Ok ((r1, true), h1) /\
    exists fuel0, forall fuel', (fuel0 <= fuel')%nat ->
      Insert fuel' t r1 k v' w' h1 = Ok ((None, false), h1).
Proof.
  intros Ht Hr Hb Hf Habsent.
  rewrite (Get_repr ck cw fuel t n k h tr Ht Hr Hf) in Habsent.
  assert (Hmiss : snd (GetNodeT ck tr k) = false).
  { rewrite <- GetT_snd. injection Habsent as ->. reflexivity. }
  destruct (InsertT_absent ck cw tr k v w (ck_range ck Hck) Hmiss) as [Hc Hne].
  destruct (Insert_repr ck cw fuel t n k v w h tr Ht Hr Hf)
    as (r1 & h1 & HI & _ & Hr1).
  rewrite Hc in HI. exists r1, h1. split; [exact HI|].
  set (tr1 := fst (InsertT ck cw tr k v w)) in *.
  exists (S (height tr1)). intros fuel' Hf'.
  assert (Hg : GetT ck tr1 k = (Some v, true)).
  { apply (GetT_InsertT ck cw Hck tr k v w); [exact Hb|].
    unfold tr1. destruct (InsertT ck cw tr k v w) as [x c]. cbn [fst snd] in *.
    rewrite Hc. reflexivity. }
  assert (Hfound : snd (GetNodeT ck tr1 k) = true).
  { rewrite <- GetT_snd, Hg. reflexivity. }
  pose proof (InsertT_present ck cw tr1 k v' w' Hfound) as HP.
  rewrite (Insert_noop_repr ck cw fuel' t r1 k v' w' h1 tr1 Ht Hr1 ltac:(lia));
    rewrite HP; reflexivity.
Qed.

End Runs.

(** ** The node that GetNode returns *)

Section FoundNode.

Context {K V : Type}.

Local Abbreviation tree := (tree K V).
Local Abbreviation heap := (heap K V).
Local Abbreviation Node := (Node K V).

Implicit Types (h : heap) (p n : ptr) (tr : tree) (t : Treap K) (nd : Node).
Implicit Types (k key : K) (v : V) (w : Z).
Implicit Types (create update reject : bool).
Implicit Types (fn : option (ptr -> heap -> bool)).

(** GetNode answers found = true with a node of the store whose key the key
    comparator finds equal to the searched key (it answers 0), and Get then
    returns the item of that node; it answers found = false with the nil
    pointer, and Get then returns (nil, false).  This holds of every run
    that returns, on any store. *)
Theorem GetNode_returns_matching_node t h n key (fuel : nat)
    (p : ptr) (found : bool) :
  GetNode fuel t n key h = Ok (p, found) ->
  if found then
    exists a nd hd f,
      p = Some a /\ h !! a = Some nd /\
      handle t = Some hd /\ CompareKeys hd = Some f /\ f key (Key nd) = 0 /\
      Get fuel t n key h = Ok (Some (Item nd), true)
  else p = None /\ Get fuel t n key h = Ok (None, false).
Proof.
  unfold Get. revert n. induction fuel as [|fuel IH]; intros n; cbn [GetNode].
  - discriminate.
  - destruct n as [a|].
    { unfold the_handle, load, call.
      destruct (handle t) as [hd|] eqn:Hh; cbn [obind]; [|discriminate].
      destruct (h !! a) as [nd|] eqn:Ha; cbn [obind]; [|discriminate].
      destruct (CompareKeys hd) as [f|] eqn:Hf; cbn [obind]; [|discriminate].
      destruct (f key (Key nd) <? 0) eqn:E1; [apply IH|].
      destruct (f key (Key nd) >? 0) eqn:E2; [apply IH|].
      intros [= <- <-]. exists a, nd, hd, f.
      repeat split; try assumption; try reflexivity.
      - apply Z.ltb_ge in E1. rewrite Z.gtb_ltb in E2. apply Z.ltb_ge in E2. lia.
      - cbn [obind]. rewrite Ha. reflexivity. }
    intros [= <- <-]. split; reflexivity.
Qed.

Variable ck : K -> K -> Z.
Variable cw : Z -> Z -> Z.

Lemma GetNodeT_node w k v (l r : tree) key :
  GetNodeT ck (T w k v l r) key =
  if ck key k <? 0 then GetNodeT ck l key
  else if ck key k >? 0 then GetNodeT ck r key
  else (T w k v l r, true).
Proof. reflexivity. Qed.

Hypothesis Hck : KeyOrder ck.

(** A rotation moves the node of a key and leaves its fields alone. *)
Lemma GetNodeT_rebalanceT tr key :
  bst ck tr ->
  root_fields (fst (GetNodeT ck (rebalanceT cw tr) key)) =
  root_fields (fst (GetNodeT ck tr key)).
Proof.
  destruct tr as [|w k v l r]; [reflexivity|]. unfold rebalanceT.
  destruct (outranksT cw l w).
  { destruct l as [|lw lk lv ll lr]; [reflexivity|].
    cbn [leftRotationT]. simpl. intros ((Hlk & _) & _).
    ck_cases ck Hck key k; ck_cases ck Hck key lk;
      repeat match goal with
             | H : ck _ _ = _ |- _ => rewrite H
             end;
      rewrite ?(ck_refl ck Hck); simpl; try reflexivity; ck_absurd ck Hck. }
  destruct (outranksT cw r w); [|reflexivity].
  destruct r as [|rw rk rv rl rr]; [reflexivity|].
  cbn [rightRotationT]. simpl. intros (_ & (Hrk & _) & _).
  ck_cases ck Hck key k; ck_cases ck Hck key rk;
    repeat match goal with
           | H : ck _ _ = _ |- _ => rewrite H
           end;
    rewrite ?(ck_refl ck Hck); simpl; try reflexivity; ck_absurd ck Hck.
Qed.

Lemma upsertT_found_fields tr k v w create (x : V) :
  bst ck tr -> GetT ck tr k = (Some x, true) ->
  root_fields (fst (GetNodeT ck
    (fst (upsertT ck cw tr k v w create true false)) k)) =
  Some (w, k, if create then v else x).
Proof.
  induction tr as [|nw nk nv l IHl r IHr]; [discriminate|].
  intros (Hl & Hr & Bl & Br). rewrite GetT_node. cbn [upsertT].
  destruct (ck_range ck Hck k nk) as [H|[H|H]]; rewrite H; simpl; intros Hg.
  - specialize (IHl Bl Hg).
    pose proof (all_keys_upsertT ck cw (fun y => ck y nk = -1) l k v w
                  create true false H Hl) as Hl'.
    pose proof (bst_upsertT ck cw Hck l k v w create true false Bl) as Bl'.
    destruct (upsertT ck cw l k v w create true false)
      as [[|rw rk rv rl rr] created]; [discriminate|].
    cbn [fst] in *.
    rewrite GetNodeT_rebalanceT by (cbn [bst]; auto).
    rewrite GetNodeT_node, H. exact IHl.
  - apply (ck_eq ck Hck) in H. subst nk. injection Hg as ->.
    cbn [fst].
    rewrite GetNodeT_rebalanceT by (cbn [bst]; auto).
    rewrite GetNodeT_node, (ck_refl ck Hck). reflexivity.
  - specialize (IHr Br Hg).
    pose proof (all_keys_upsertT ck cw (fun y => ck y nk = 1) r k v w
                  create true false H Hr) as Hr'.
    pose proof (bst_upsertT ck cw Hck r k v w create true false Br) as Br'.
    destruct (upsertT ck cw r k v w create true false)
      as [[|rw rk rv rl rr] created]; [discriminate|].
    cbn [fst] in *.
    rewrite GetNodeT_rebalanceT by (cbn [bst]; auto).
    rewrite GetNodeT_node, H. exact IHr.
Qed.

(** upsert with [update] set, on a key that the search tree holds and that
    the predicate does not refuse, gives the node of that key the weight w in
    the tree it returns; the node keeps its item when [create] is not set (a
    change of weight alone) and gets the item v when it is. *)
Theorem upsert_sets_the_weight t h n tr k v w create fn (x : V) (fuel : nat) :
  uses ck cw t -> fn_answers ck fn h n k false ->
  repr h n tr -> bst ck tr -> (height tr < fuel)%nat ->
  Get fuel t n k h = Ok (Some x, true) ->
  exists n' h',
    upsert fuel t n k v w create true fn h = Ok ((n', false), h') /\
    exists fuel0, forall fuel', (fuel0 <= fuel')%nat ->
      exists a nd,
        GetNode fuel' t n' k h' = Ok (Some a, true) /\
        h' !! a = Some nd /\
        Weight nd = w /\ Key nd = k /\
        Item nd = (if create then v else x).
Proof.
  intros Ht Hfn Hr Hb Hf Hpresent.
  rewrite (Get_repr ck cw fuel t n k h tr Ht Hr Hf) in Hpresent.
  injection Hpresent as Hg.
  assert (Hfound : snd (GetNodeT ck tr k) = true).
  { rewrite <- GetT_snd, Hg. reflexivity. }
  pose proof (upsertT_elements ck cw Hck tr k v w create true false Hb) as He.
  rewrite (ins_present ck cw Hck tr k v Hb Hfound) in He.
  destruct He as (Hc & _ & _).
  destruct (upsert_repr ck cw fuel t n k v w create true fn false h tr
              Ht Hfn Hr Hf) as (n' & h' & HU & _ & Hr' & _).
  rewrite Hc in HU. exists n', h'. split; [exact HU|].
  set (tr' := fst (upsertT ck cw tr k v w create true false)) in *.
  exists (S (height tr')). intros fuel' Hf'.
  destruct (GetNode_repr ck cw fuel' t n' k h' tr' Ht Hr' ltac:(lia))
    as (p & HG & Hp).
  pose proof (upsertT_found_fields tr k v w create x Hb Hg) as Hfields.
  fold tr' in Hfields.
  destruct (GetNodeT ck tr' k) as [[|fw fk fv fl fr] found] eqn:EG;
    [discriminate|].
  cbn [fst snd root_fields] in *. injection Hfields as -> -> ->.
  assert (found = true) as ->.
  { destruct found; [reflexivity|]. apply GetNodeT_missing in EG. discriminate. }
  apply repr_T_inv in Hp as (a & nd & -> & Ha & Hw & Hk & Hv & _).
  exists a, nd. repeat split; [exact HG | exact Ha | congruence..].
Qed.

End FoundNode.

(** ** Min and Max read the treap's own root *)

Section RootField.

Context {K V : Type}.

Implicit Types (h : heap K V) (n : ptr) (tr : tree K V) (t : Treap K).


End RootField.

(** ** The further theorems at work on the example stores *)

Lemma ex_heap2_repr :
  repr ex_heap2 (Some 4%nat) (T 5 3 30 E (T 10 5 50 E E)).
Proof.
  apply (repr_node ex_heap2 4 (mkNode 5 3 30 None (Some 3%nat)) E
           (T 10 5 50 E E) eq_refl); [constructor|].
  apply (repr_node ex_heap2 3 (mkNode 10 5 50 None None) E E eq_refl);
    constructor.
Defined.

Lemma ex_heap2_repr_2 :
  repr ex_heap2 (Some 2%nat) (T 10 5 50 (T 5 3 30 E E) E).
Proof.
  apply (repr_node ex_heap2 2 (mkNode 10 5 50 (Some 1%nat) None)
           (T 5 3 30 E E) E eq_refl); [|constructor].
  apply (repr_node ex_heap2 1 (mkNode 5 3 30 None None) E E eq_refl);
    constructor.
Defined.

Lemma ex_tree2_bst : bst Zcmp (T 5 3 30 E (T 10 5 50 E E) : tree Z Z).
Proof. simpl. repeat split. Defined.

Lemma Get_finds_the_bindings_witness :
  (forall v, Get 3 ex_treap (Some 4%nat) 5 ex_heap2 = Ok (Some v, true) <->
             In (5, v) [(3, 30); (5, 50)]) /\
  (Get 3 ex_treap (Some 4%nat) 5 ex_heap2 = Ok (None, false) <->
   ~ In 5 [3; 5]).
Proof.
  apply (Get_finds_the_bindings Zcmp Zcmp Zcmp_KeyOrder ex_treap ex_heap2
           (Some 4%nat) (T 5 3 30 E (T 10 5 50 E E)) 5 3 eq_refl
           ex_heap2_repr ex_tree2_bst).
  simpl. lia.
Defined.

Lemma Insert_adds_one_binding_witness :
  exists newRoot h' tr',
    Insert 2 ex_treap (Some 0%nat) 3 30 5 ex_heap1 = Ok ((newRoot, true), h') /\
    repr h' newRoot tr' /\ bst Zcmp tr' /\
    ins Zcmp 3 30 [(5, 50)] = Some (elements tr') /\
    Permutation (elements tr') [(3, 30); (5, 50)].
Proof.
  apply (Insert_adds_one_binding Zcmp Zcmp Zcmp_KeyOrder ex_treap ex_heap1
           (Some 0%nat) (T 10 5 50 E E) 3 30 5 2 eq_refl ex_heap1_repr).
  - simpl. auto.
  - simpl. lia.
  - reflexivity.
Defined.

Lemma Insert_keeps_other_keys_witness :
  exists fuel0, forall fuel', (fuel0 <= fuel')%nat ->
    Get fuel' ex_treap (Some 4%nat) 5 ex_heap2 =
    Get fuel' ex_treap (Some 0%nat) 5 ex_heap1.
Proof.
  apply (Insert_keeps_other_keys Zcmp Zcmp Zcmp_KeyOrder ex_treap ex_heap1
           (Some 0%nat) (T 10 5 50 E E) 3 30 5 2 (Some 4%nat) true ex_heap2 5
           eq_refl ex_heap1_repr).
  - simpl. auto.
  - simpl. lia.
  - reflexivity.
  - discriminate.
  - discriminate.
Defined.

Lemma Min_least_Max_greatest_witness :
  exists kmin vmin kmax vmax,
    Min 2 (with_root ex_treap (Some 4%nat)) ex_heap2 = Ok (Some vmin) /\
    In (kmin, vmin) [(3, 30); (5, 50)] /\
    Max 2 (with_root ex_treap (Some 4%nat)) ex_heap2 = Ok (Some vmax) /\
    In (kmax, vmax) [(3, 30); (5, 50)] /\
    forall k', In k' [3; 5] ->
      (k' = kmin \/ Zcmp kmin k' = -1) /\ (k' = kmax \/ Zcmp k' kmax = -1).
Proof.
  apply (Min_least_Max_greatest Zcmp Zcmp_KeyOrder
           (with_root ex_treap (Some 4%nat)) ex_heap2
           (T 5 3 30 E (T 10 5 50 E E)) 2 ex_heap2_repr ex_tree2_bst).
  - discriminate.
  - simpl. lia.
Defined.

Lemma Insert_allocation_bound_witness :
  (length ex_heap1 <= length ex_heap2 <= length ex_heap1 + 3 * (1 + 1))%nat.
Proof.
  apply (Insert_allocation_bound Zcmp Zcmp ex_treap ex_heap1 (Some 0%nat)
           (T 10 5 50 E E) 3 30 5 2 (Some 4%nat) true ex_heap2 eq_refl
           ex_heap1_repr).
  reflexivity.
Defined.

Lemma rotations_are_inverse_witness :
  exists p h1 q h2,
    leftRotation ex_treap (Some 2%nat) ex_heap2 = Ok (p, h1) /\
    rightRotation ex_treap p h1 = Ok (q, h2) /\
    repr h2 q (T 10 5 50 (T 5 3 30 E E) E).
Proof.
  exact (proj1 (rotations_are_inverse ex_treap ex_heap2 (Some 2%nat)
                  10 5 50 E E E 5 3 30) ex_heap2_repr_2).
Defined.

Lemma missing_comparator_panics_witness :
  GetNode 1 (mkTreap None None) (Some 0%nat) 5 ex_heap1 = NilFunc /\
  Insert 2 (mkTreap (Some (mkHandle None (Some Zcmp))) None) (Some 0%nat)
    3 30 5 ex_heap1 = NilFunc.
Proof.
  split.
  - exact (proj1 (proj1 (missing_comparator_panics Zcmp (mkTreap None None)
                           ex_heap1)
                    0%nat 0%nat (mkNode 10 5 50 None None) 5 50 10 true false None
                    (or_introl eq_refl) eq_refl)).
  - apply (proj1 (proj2 (missing_comparator_panics Zcmp
                           (mkTreap (Some (mkHandle None (Some Zcmp))) None)
                           ex_heap1))
             2%nat (Some 0%nat) (T 10 5 50 E E) 3 30 5 eq_refl
             (ck_range Zcmp Zcmp_KeyOrder) ex_heap1_repr).
    + discriminate.
    + simpl. lia.
    + reflexivity.
Defined.


Lemma upsert_on_present_key_witness :
  exists n' h' tr',
    upsert 2 ex_treap (Some 0%nat) 5 51 7 true true None ex_heap1
      = Ok ((n', false), h') /\
    repr h' n' tr' /\ bst Zcmp tr' /\ elements tr' = [(5, 51)].
Proof.
  apply (upsert_on_present_key Zcmp Zcmp Zcmp_KeyOrder ex_treap ex_heap1
           (Some 0%nat) (T 10 5 50 E E) 5 51 7 true true None false 50 2
           eq_refl eq_refl ex_heap1_repr).
  - simpl. auto.
  - simpl. lia.
  - reflexivity.
Defined.

Lemma upsert_on_absent_key_witness :
  upsert 2 ex_treap (Some 0%nat) 3 30 5 false true None ex_heap1
    = Ok ((None, false), ex_heap1).
Proof.
  apply (upsert_on_absent_key Zcmp Zcmp Zcmp_KeyOrder ex_treap ex_heap1
           (Some 0%nat) (T 10 5 50 E E) 3 30 5 false true None 2
           eq_refl ex_heap1_repr).
  - simpl. auto.
  - simpl. lia.
  - reflexivity.
Defined.

Lemma upsert_sets_the_weight_witness :
  exists n' h',
    upsert 2 ex_treap (Some 0%nat) 5 51 7 false true None ex_heap1
      = Ok ((n', false), h') /\
    exists fuel0, forall fuel', (fuel0 <= fuel')%nat ->
      exists a nd,
        GetNode fuel' ex_treap n' 5 h' = Ok (Some a, true) /\
        h' !! a = Some nd /\
        Weight nd = 7 /\ Key nd = 5 /\ Item nd = 50.
Proof.
  apply (upsert_sets_the_weight Zcmp Zcmp Zcmp_KeyOrder ex_treap ex_heap1
           (Some 0%nat) (T 10 5 50 E E) 5 51 7 false None 50 2
           eq_refl eq_refl ex_heap1_repr).
  - simpl. auto.
  - simpl. lia.
  - reflexivity.
Defined.

Lemma GetNode_returns_matching_node_witness :
  exists a nd hd f,
    Some 3%nat = Some a /\ ex_heap2 !! a = Some nd /\
    handle ex_treap = Some hd /\ CompareKeys hd = Some f /\ f 5 (Key nd) = 0 /\
    Get 3 ex_treap (Some 4%nat) 5 ex_heap2 = Ok (Some (Item nd), true).
Proof.
  apply (GetNode_returns_matching_node ex_treap ex_heap2 (Some 4%nat) 5 3
           (Some 3%nat) true).
  reflexivity.
Defined.

Lemma reachable_root_has_top_priority_witness :
  exists tr, repr ex_heap2 (Some 4%nat) tr /\
    forall rw rk rv l r, tr = T rw rk rv l r ->
      all_weights (fun y => Zcmp y rw >= 0) tr.
Proof.
  exact (reachable_root_has_top_priority Zcmp Zcmp ex_treap ex_heap2
           (Some 4%nat) Zcmp_WeightOrder eq_refl ex_heap2_reachable).
Defined.

Lemma InsertAll_sorted_bindings_witness :
  exists r h' tr,
    InsertAll 3 ex_treap None [(5, 50, 10); (3, 30, 5); (8, 80, 7)] [] = Ok (r, h') /\
    repr h' r tr /\ bst Zcmp tr /\
    Permutation (elements tr) [(5, 50); (3, 30); (8, 80)] /\
    StronglySorted (klt Zcmp) (keys tr).
Proof.
  apply (InsertAll_sorted_bindings Zcmp Zcmp Zcmp_KeyOrder ex_treap []
           [(5, 50, 10); (3, 30, 5); (8, 80, 7)] 3 eq_refl).
  - simpl.
    repeat (apply NoDup_cons; split;
            [rewrite ?not_elem_of_cons; repeat split;
             first [lia | apply not_elem_of_nil]|]).
    apply NoDup_nil. exact I.
  - simpl. lia.
Defined.

Lemma Insert_twice_is_refused_witness :
  exists r1 h1,
    Insert 2 ex_treap (Some 0%nat) 3 30 5 ex_heap1 = Ok ((r1, true), h1) /\
    exists fuel0, forall fuel', (fuel0 <= fuel')%nat ->
      Insert fuel' ex_treap r1 3 31 6 h1 = Ok ((None, false), h1).
Proof.
  apply (Insert_twice_is_refused Zcmp Zcmp Zcmp_KeyOrder ex_treap ex_heap1
           (Some 0%nat) (T 10 5 50 E E) 3 30 5 31 6 2 eq_refl ex_heap1_repr).
  - simpl. auto.
  - simpl. lia.
  - reflexivity.
Defined.

